(** * The relay server of [code/simluation/server.py]

    The server keeps one module-level set, [active_websockets], and runs one
    [websocket_handler] coroutine per WebSocket connection on a single
    asyncio event loop.  A coroutine runs without interruption between two
    [await]s, so the embedding is a transition system whose steps are the
    code blocks between suspension points; what the event loop and the
    transport library decide (which coroutine resumes, which message
    arrives, whether a write raises, in which order a set is traversed) is
    carried by the label of the step. *)

From stdpp Require Import gmap strings list sets.

(** * Part I: the program *)

Module Relay.

(** ** Data *)

(** A connection is the [web.WebSocketResponse] object of one handler call;
    [client is not ws] compares object identities, modelled by a number
    given to the object when it is created. *)
Abbreviation conn := nat.

(** [aiohttp.WSMsgType]. *)
Inductive WSMsgType :=
| CONTINUATION | TEXT | BINARY | PING | PONG | CLOSE | CLOSING | CLOSED | ERROR.

#[global] Instance WSMsgType_eq_dec : EqDecision WSMsgType.
Proof. solve_decision. Defined.

(** [aiohttp.WSMessage]: the handler reads [msg.type] and [msg.data]. *)
Record WSMessage := mkMsg { msg_type : WSMsgType; msg_data : string }.

#[global] Instance WSMessage_eq_dec : EqDecision WSMessage.
Proof. solve_decision. Defined.

(** Exceptions.  [RuntimeError] is raised by the interpreter itself (a set
    iterator that finds the size of its set changed); every other exception
    comes out of a library call and is named by its class. *)
Inductive exn :=
| RuntimeError (what : string)
| LibraryError (class : string).

#[global] Instance exn_eq_dec : EqDecision exn.
Proof. solve_decision. Defined.

Definition set_changed_size : exn :=
  RuntimeError "Set changed size during iteration".

(** The iterator of [for client in active_websockets] (line 22), as it is
    kept while the loop body is suspended in [send_str]: the members still
    to come, the size the set had when the iterator last looked at it, and
    the number of structural changes the set had seen by then. *)
Record set_iterator := mkIter {
  it_todo : list conn;
  it_used : nat;
  it_version : nat
}.

#[global] Instance set_iterator_eq_dec : EqDecision set_iterator.
Proof. solve_decision. Defined.

(** Where a handler coroutine stands. *)
Inductive pc :=
| Preparing                                   (* line 11, in [await ws.prepare(request)] *)
| Reading                                     (* line 19, waiting for the next message *)
| Sending (it : set_iterator) (data : string) (* line 24, in [await client.send_str(msg.data)] *)
| Returned                                    (* line 33, after the [finally] block *)
| Raised (e : exn)                            (* an exception left the [try], after the [finally] block *)
| Aborted (e : exn).                          (* [ws.prepare] raised, before the [try] *)

#[global] Instance pc_eq_dec : EqDecision pc.
Proof. solve_decision. Defined.

(** The three lines the handler prints. *)
Inductive line :=
| Device_connected          (* line 15 *)
| Closed_with_exception     (* line 26 *)
| Device_disconnected.      (* line 31 *)

#[global] Instance line_eq_dec : EqDecision line.
Proof. solve_decision. Defined.

(** What a handler does that can be seen from outside, in the order it
    happens: it takes a message from its connection, it calls [send_str] on
    a peer, it prints. *)
Inductive action :=
| Received (ws : conn) (msg : WSMessage)
| SendStr (ws client : conn) (data : string)
| Print (ws : conn) (l : line).

#[global] Instance action_eq_dec : EqDecision action.
Proof. solve_decision. Defined.

(** The state of the process. *)
Record Server := mkServer {
  active_websockets : gset conn;  (* line 7 *)
  mutations : nat;                (* structural changes of the set so far *)
  tasks : gmap conn pc;           (* the handler coroutines *)
  closed : gset conn;             (* the connections whose [.closed] is true *)
  next_ws : conn;                 (* identity of the next object created *)
  log : list action
}.

Definition init : Server :=
  {| active_websockets := ∅; mutations := 0; tasks := ∅; closed := ∅;
     next_ws := 0; log := [] |}.

(** ** Statements of the handler *)

Definition set_pc (ws : conn) (p : pc) (s : Server) : Server :=
  {| active_websockets := active_websockets s; mutations := mutations s;
     tasks := <[ws := p]> (tasks s); closed := closed s;
     next_ws := next_ws s; log := log s |}.

Definition emit (a : action) (s : Server) : Server :=
  {| active_websockets := active_websockets s; mutations := mutations s;
     tasks := tasks s; closed := closed s;
     next_ws := next_ws s; log := log s ++ [a] |}.

(** [active_websockets.add(ws)], line 14. *)
Definition set_add (ws : conn) (s : Server) : Server :=
  if decide (ws ∈ active_websockets s) then s
  else {| active_websockets := {[ws]} ∪ active_websockets s;
          mutations := S (mutations s);
          tasks := tasks s; closed := closed s;
          next_ws := next_ws s; log := log s |}.

(** [active_websockets.discard(ws)], line 30: unlike [remove], [discard]
    has no exceptional outcome. *)
Definition set_discard (ws : conn) (s : Server) : Server :=
  if decide (ws ∈ active_websockets s)
  then {| active_websockets := active_websockets s ∖ {[ws]};
          mutations := S (mutations s);
          tasks := tasks s; closed := closed s;
          next_ws := next_ws s; log := log s |}
  else s.

(** The [finally] block, lines 28-31. *)
Definition cleanup (ws : conn) (s : Server) : Server :=
  emit (Print ws Device_disconnected) (set_discard ws s).

(** Leaving the [try] block, by the end of the loop or by an exception:
    the [finally] block runs, then the coroutine ends as [outcome] says. *)
Definition exit_loop (ws : conn) (outcome : pc) (s : Server) : Server :=
  set_pc ws outcome (cleanup ws s).

(** Line 23, the guard of the inner loop. *)
Definition eligible (ws : conn) (cl : gset conn) (client : conn) : Prop :=
  client ≠ ws ∧ client ∉ cl.

#[global] Instance eligible_dec ws cl client : Decision (eligible ws cl client).
Proof. unfold eligible. apply _. Defined.

(** Lines 22-23 from the iterator's position on: the members are taken one
    by one until one passes the guard. *)
Fixpoint next_client (ws : conn) (cl : gset conn) (todo : list conn)
  : option (conn * list conn) :=
  match todo with
  | [] => None
  | client :: todo' =>
      if decide (eligible ws cl client) then Some (client, todo')
      else next_client ws cl todo'
  end.

(** Lines 22-24 up to the next suspension: either [send_str] is called on
    the next eligible member and the coroutine is suspended in it, or the
    iterator is exhausted and the coroutine is back at line 19. *)
Definition for_clients (ws : conn) (todo : list conn) (data : string)
    (s : Server) : Server :=
  match next_client ws (closed s) todo with
  | Some (client, rest) =>
      set_pc ws
        (Sending (mkIter rest (size (active_websockets s)) (mutations s)) data)
        (emit (SendStr ws client data) s)
  | None => set_pc ws Reading s
  end.

(** An order in which a set can be traversed: each member once. *)
Definition enumerates (order : list conn) (X : gset conn) : Prop :=
  NoDup order ∧ list_to_set order = X.

#[global] Instance enumerates_dec order X : Decision (enumerates order X).
Proof. unfold enumerates. apply _. Defined.

(** What an iterator can still yield once the table it walks was rebuilt
    under it while the size stayed the same: some members, each once. *)
Definition partial_enumeration (todo : list conn) (X : gset conn) : Prop :=
  NoDup todo ∧ Forall (λ c, c ∈ X) todo.

#[global] Instance partial_enumeration_dec todo X :
  Decision (partial_enumeration todo X).
Proof. unfold partial_enumeration. apply _. Defined.

(** ** Steps *)

(** The labels: what the event loop, the transport and the peers decide. *)
Inductive event :=
| Request                                   (* a GET /ws arrives: line 10 runs *)
| Prepared (ws : conn)                      (* [ws.prepare] returns *)
| PrepareRaise (ws : conn) (e : exn)        (* [ws.prepare] raises *)
| Recv (ws : conn) (msg : WSMessage) (order : list conn)
     (* [async for] yields [msg]; [order] is the order in which the set is
        traversed if the body iterates over it *)
| RecvEnd (ws : conn)                       (* [async for] ends *)
| RecvRaise (ws : conn) (e : exn)           (* waiting for a message raises *)
| Sent (ws : conn)                          (* the pending [send_str] returns *)
| SentRacy (ws : conn) (todo : list conn)
     (* the pending [send_str] returns after the set was changed and
        restored to its old size; [todo] is what the iterator yields from
        here on *)
| SendRaise (ws : conn) (e : exn)           (* the pending [send_str] raises *)
| Close (client : conn).                    (* [client.closed] becomes true *)

(** The coroutine a label resumes, if any. *)
Definition task_of (ev : event) : option conn :=
  match ev with
  | Request | Close _ => None
  | Prepared ws | PrepareRaise ws _ | Recv ws _ _ | RecvEnd ws
  | RecvRaise ws _ | Sent ws | SentRacy ws _ | SendRaise ws _ => Some ws
  end.

(** [websocket_handler] (lines 9-33), resumed where it stands ([here]) by
    what it was waiting for, and run to its next [await] or to its end.
    [ws] is the object line 10 made. *)
Definition websocket_handler (ws : conn) (here : pc) (ev : event)
    (s : Server) : option Server :=
  match here, ev with
  | Preparing, Prepared _ =>
      (* lines 14-15, then into the [try] and to line 19 *)
      Some (set_pc ws Reading (emit (Print ws Device_connected) (set_add ws s)))
  | Preparing, PrepareRaise _ e =>
      (* line 11 is outside the [try] *)
      Some (set_pc ws (Aborted e) s)
  | Reading, Recv _ msg order =>
      let s1 := emit (Received ws msg) s in
      match msg_type msg with
      | TEXT =>
          (* lines 20-24 *)
          if decide (enumerates order (active_websockets s))
          then Some (for_clients ws order (msg_data msg) s1)
          else None
      | ERROR =>
          (* lines 25-26, then back to line 19 *)
          Some (emit (Print ws Closed_with_exception) s1)
      | _ =>
          (* neither branch: back to line 19 *)
          Some s1
      end
  | Reading, RecvEnd _ =>
      (* the loop is over: lines 28-33 *)
      Some (exit_loop ws Returned s)
  | Reading, RecvRaise _ e =>
      (* lines 28-31, and the exception goes on *)
      Some (exit_loop ws (Raised e) s)
  | Sending it data, Sent _ =>
      (* line 22 asks the iterator for the next member *)
      if decide (size (active_websockets s) = it_used it) then
        if decide (mutations s = it_version it)
        then Some (for_clients ws (it_todo it) data s)
        else None
      else Some (exit_loop ws (Raised set_changed_size) s)
  | Sending it data, SentRacy _ todo =>
      if decide (size (active_websockets s) = it_used it
                 ∧ mutations s ≠ it_version it
                 ∧ partial_enumeration todo (active_websockets s))
      then Some (for_clients ws todo data s)
      else None
  | Sending _ _, SendRaise _ e =>
      (* line 24 raises: lines 28-31, and the exception goes on *)
      Some (exit_loop ws (Raised e) s)
  | _, _ => None
  end.

(** One step of the process: a request makes a new coroutine, a transport
    goes down, or a suspended coroutine is resumed. *)
Definition step (s : Server) (ev : event) : option Server :=
  match ev with
  | Request =>
      (* line 10: [ws = web.WebSocketResponse()], then line 11 *)
      Some {| active_websockets := active_websockets s;
              mutations := mutations s;
              tasks := <[next_ws s := Preparing]> (tasks s);
              closed := closed s;
              next_ws := S (next_ws s); log := log s |}
  | Close client =>
      match tasks s !! client with
      | Some _ =>
          Some {| active_websockets := active_websockets s;
                  mutations := mutations s; tasks := tasks s;
                  closed := {[client]} ∪ closed s;
                  next_ws := next_ws s; log := log s |}
      | None => None
      end
  | Prepared ws | PrepareRaise ws _ | Recv ws _ _ | RecvEnd ws
  | RecvRaise ws _ | Sent ws | SentRacy ws _ | SendRaise ws _ =>
      match tasks s !! ws with
      | Some here => websocket_handler ws here ev s
      | None => None
      end
  end.

Fixpoint run (s : Server) (tr : list event) : option Server :=
  match tr with
  | [] => Some s
  | ev :: tr' =>
      match step s ev with
      | Some s' => run s' tr'
      | None => None
      end
  end.

(** A text message. *)
Definition text (data : string) : WSMessage := mkMsg TEXT data.

(** ** Readings of a state, a run and a log *)

(** The states the server can be in. *)
Definition reachable (s : Server) : Prop := ∃ tr, run init tr = Some s.

(** The coroutine is inside the [async for] loop. *)
Definition in_loop (p : option pc) : Prop :=
  match p with
  | Some Reading | Some (Sending _ _) => True
  | _ => False
  end.

(** The coroutine went through the [finally] block. *)
Definition exited (p : option pc) : Prop :=
  match p with
  | Some Returned | Some (Raised _) => True
  | _ => False
  end.

(** How often [ws] is taken out of the set along a run: the number of
    steps that find it in the set and leave it out. *)
Fixpoint removals (ws : conn) (s : Server) (tr : list event) : nat :=
  match tr with
  | [] => 0
  | ev :: tr' =>
      match step s ev with
      | Some s' =>
          (if decide (ws ∈ active_websockets s ∧ ws ∉ active_websockets s')
           then 1 else 0) + removals ws s' tr'
      | None => 0
      end
  end.

(** What a step adds to the log. *)
Definition new_actions (s s' : Server) : list action :=
  drop (length (log s)) (log s').

(** The message the handler of [ws] took last, read off the log. *)
Definition note (ws : conn) (cur : option WSMessage) (a : action)
  : option WSMessage :=
  match a with
  | Received ws' msg => if decide (ws' = ws) then Some msg else cur
  | _ => cur
  end.

Definition last_received (ws : conn) (l : list action) : option WSMessage :=
  foldl (note ws) None l.

(** The data of the text messages the handler of [ws] took, in order. *)
Definition text_of (ws : conn) (a : action) : option string :=
  match a with
  | Received ws' (mkMsg TEXT data) => if decide (ws' = ws) then Some data else None
  | _ => None
  end.

Definition texts_received (ws : conn) (l : list action) : list string :=
  omap (text_of ws) l.

(** The data the handler of [ws] passed to [send_str], in order. *)
Definition payload_of (ws : conn) (a : action) : option string :=
  match a with
  | SendStr ws' _ data => if decide (ws' = ws) then Some data else None
  | _ => None
  end.

Definition payloads_sent (ws : conn) (l : list action) : list string :=
  omap (payload_of ws) l.

(** Every [send_str] in a log carries the data of the text message its
    caller took last. *)
Definition verbatim (l : list action) : Prop :=
  ∀ pre ws client data post,
    l = pre ++ SendStr ws client data :: post →
    last_received ws pre = Some (text data).

(** A suspended iterator that has seen every change of its set so far
    still has members of the set to yield, and remembers the set's size. *)
Definition iter_ok (s : Server) : Prop :=
  ∀ ws it data, tasks s !! ws = Some (Sending it data) →
    it_version it ≤ mutations s
    ∧ (it_version it = mutations s →
       Forall (λ c, c ∈ active_websockets s) (it_todo it)
       ∧ it_used it = size (active_websockets s)).

(** The log of a reachable state is [verbatim], and a handler suspended
    in [send_str] holds the data of the text message it took last. *)
Definition log_ok (s : Server) : Prop :=
  verbatim (log s)
  ∧ ∀ ws it data, tasks s !! ws = Some (Sending it data) →
      last_received ws (log s) = Some (text data).

(** ** Scenarios *)

(** Three connections 0, 1 and 2 are registered and their handlers wait
    for a message. *)
Definition three_connected : list event :=
  [Request; Request; Request; Prepared 0; Prepared 1; Prepared 2].

Definition three_clients : Server := default init (run init three_connected).

(** A full life: connection 1 is accepted, reads, relays to 0 and leaves
    when its message stream ends. *)
Definition one_life : list event :=
  [Request; Request; Prepared 0; Prepared 1;
   Recv 1 (text "hello") [0; 1]; Sent 1; RecvEnd 1].

(** What a write to a transport that is going down raises. *)
Definition connection_reset : exn := LibraryError "ConnectionResetError".

(** A payload as the simulator sends them. *)
Definition long_text : string :=
  "{'rpm': 12500, 'tps': 87.5, 'note': '  spaces and <tags> kept  '}".


(** Connections 0, 1 and 2 are registered, a fourth request is in
    [prepare].  The handler of 0 takes a text and is suspended in its
    first write, to 1; before that write returns, [prepare] of connection
    3 returns; then the write returns. *)
Definition join_during_fanout : list event :=
  [Request; Request; Request; Request; Prepared 0; Prepared 1; Prepared 2;
   Recv 0 (text "hello") [1; 0; 2]; Prepared 3; Sent 0].

(** ** Further readings of a state and a log *)

(** The handler is inside the loop. *)
Definition looping (p : pc) : bool :=
  match p with
  | Reading | Sending _ _ => true
  | _ => false
  end.

(** The connections whose handler is inside the loop. *)
Definition open_connections (s : Server) : gset conn :=
  dom (filter (λ kv, looping kv.2) (tasks s)).

Definition is_print (l : line) (a : action) : bool :=
  match a with
  | Print _ l' => bool_decide (l' = l)
  | _ => false
  end.

(** How often a line was printed. *)
Definition prints (l : line) (lg : list action) : nat :=
  length (filter (λ a, is_print l a) lg).

(** No write to [b] among some actions. *)
Definition unsent (b : conn) (l : list action) : Prop :=
  Forall (λ x, ∀ a d, x ≠ SendStr a b d) l.

(** Connections 0 and 1 are registered, then 1 leaves. *)
Definition left_alone : list event :=
  [Request; Request; Prepared 0; Prepared 1; RecvEnd 1].

(** Connections 0, 1 and 2 are registered and the transport of 2 is
    down. *)
Definition one_closed : list event := three_connected ++ [Close 2].

(** ** Readings for the error frame and for the order of relaying *)



(** One text message served without another coroutine in between: the
    message is yielded with its data and the order of the traversal, and
    every [send_str] of its fan-out returns.  [cl] holds the connections
    whose transport is closed. *)
Definition fanout_events (ws : conn) (cl : gset conn)
    (m : string * list conn) : list event :=
  Recv ws (text m.1) m.2
  :: replicate (length (filter (eligible ws cl) m.2)) (Sent ws).

(** What lines 19-24 are to do for that message: take it, then call
    [send_str] with its data on each member that passes the guard, in the
    order of the traversal. *)
Definition fanout_actions (ws : conn) (cl : gset conn)
    (m : string * list conn) : list action :=
  Received ws (text m.1)
  :: ((λ c, SendStr ws c m.1) <$> filter (eligible ws cl) m.2).


(** Two text messages for one handler, each with the order in which the
    set is traversed for it. *)
Definition first_second : list (string * list conn) :=
  [("first", [0; 1; 2]); ("second", [2; 1; 0])].

End Relay.

(** ** The routes of the application (lines 35-49) *)

Module Http.

Inductive method := GET | HEAD | POST | PUT | DELETE | PATCH | OPTIONS.

#[global] Instance method_eq_dec : EqDecision method.
Proof. solve_decision. Defined.

Record request := mkRequest { req_method : method; req_path : string }.

(** Line 4. *)
Definition EXTERNAL_DASHBOARD_PATH : string := "../data/dashboard.html".

(** What a handler returns. *)
Inductive response :=
| WebSocketResponse
| FileResponse (path : string)
| HTTPNotFound
| HTTPMethodNotAllowed (allowed : list method).

(** The file system as the process sees it: the contents of the file a
    path names, if there is one. *)
Definition files := string → option string.

Inductive handler :=
| websocket_handler             (* line 9 *)
| external_dashboard_handler    (* line 35 *)
| static_handler (directory : string).

(** A resource of the router: a fixed path with the methods it has routes
    for, or a directory served under a prefix. *)
Inductive resource :=
| PlainResource (path : string) (methods : list method) (h : handler)
| StaticResource (prefix : string) (directory : string).

(** [router.add_get(path, handler)]: a route for GET and, as [allow_head]
    is left at its default, one for HEAD. *)
Definition add_get (path : string) (h : handler) (router : list resource)
  : list resource :=
  router ++ [PlainResource path [HEAD; GET] h].

(** [if prefix.endswith("/"): prefix = prefix[:-1]], the router's
    normal form of a prefix. *)
Definition strip_slash (prefix : string) : string :=
  if bool_decide
       (String.substring (String.length prefix - 1) 1 prefix = "/")
  then String.substring 0 (String.length prefix - 1) prefix
  else prefix.

(** [router.add_static(prefix, path=directory)]. *)
Definition add_static (prefix directory : string) (router : list resource)
  : list resource :=
  router ++ [StaticResource (strip_slash prefix) directory].

(** Lines 39-49; [cwd] is what [os.getcwd()] returns at start-up. *)
Definition app (cwd : string) : list resource :=
  add_static "/" cwd
    (add_get "/dashboard.html" external_dashboard_handler
       (add_get "/ws" websocket_handler [])).

(** One resource asked for a request: the handler and the file name it
    matched, or the methods it would have allowed. *)
Definition resource_resolve (r : resource) (req : request)
  : option (handler * string) * list method :=
  match r with
  | PlainResource path methods h =>
      if decide (req_path req = path) then
        if decide (req_method req ∈ methods) then (Some (h, EmptyString), methods)
        else (None, methods)
      else (None, [])
  | StaticResource prefix directory =>
      if String.prefix (prefix +:+ "/") (req_path req)
         || bool_decide (req_path req = prefix)
      then
        if decide (req_method req ∈ [GET; HEAD])
        then (Some (static_handler directory,
                    String.substring (S (String.length prefix))
                      (String.length (req_path req) - S (String.length prefix))
                      (req_path req)),
              [GET; HEAD])
        else (None, [GET; HEAD])
      else (None, [])
  end.

(** The router: the resources are asked in the order they were added and
    the first that matches answers. *)
Fixpoint resolve (router : list resource) (req : request)
    (allowed : list method) : (handler * string) + list method :=
  match router with
  | [] => inr allowed
  | r :: router' =>
      match resource_resolve r req with
      | (Some m, _) => inl m
      | (None, methods) => resolve router' req (allowed ++ methods)
      end
  end.

Definition handle (fs : files) (h : handler) (filename : string) : response :=
  match h with
  | websocket_handler => WebSocketResponse
  | external_dashboard_handler => FileResponse EXTERNAL_DASHBOARD_PATH  (* line 36 *)
  | static_handler directory =>
      match fs (directory +:+ ("/" +:+ filename)) with
      | Some _ => FileResponse (directory +:+ ("/" +:+ filename))
      | None => HTTPNotFound
      end
  end.

Definition dispatch (router : list resource) (fs : files) (req : request)
  : response :=
  match resolve router req [] with
  | inl (h, filename) => handle fs h filename
  | inr [] => HTTPNotFound
  | inr allowed => HTTPMethodNotAllowed allowed
  end.

(** The contents a response carries. *)
Definition body (fs : files) (r : response) : option string :=
  match r with
  | FileResponse path => fs path
  | _ => None
  end.

(** The application without line 45. *)
Definition app_without_alias (cwd : string) : list resource :=
  add_static "/" cwd (add_get "/ws" websocket_handler []).

Definition dashboard_request : request := mkRequest GET "/dashboard.html".

(** A file system with a dashboard at the external path and another one
    in the working directory /srv/simulation. *)
Definition two_dashboards : files :=
  λ path, if bool_decide (path = EXTERNAL_DASHBOARD_PATH)
          then Some "<html>external</html>"
          else if bool_decide (path = "/srv/simulation/dashboard.html")
               then Some "<html>local</html>"
               else None.

End Http.

(** * Part II: properties of the relay loop *)

Import Relay.

(** ** Basic facts *)

Lemma run_app s tr1 tr2 :
  run s (tr1 ++ tr2) = run s tr1 ≫= λ s1, run s1 tr2.
Proof.
  revert s. induction tr1 as [|ev tr1 IH]; intros s; simpl; [done|].
  destruct (step s ev); simpl; auto.
Qed.

Lemma run_snoc s tr ev :
  run s (tr ++ [ev]) = run s tr ≫= λ s1, step s1 ev.
Proof.
  rewrite run_app. destruct (run s tr) as [s1|]; simpl; [|done].
  by destruct (step s1 ev).
Qed.

Lemma reachable_init : reachable init.
Proof. by exists []. Qed.

Lemma reachable_step s ev s' :
  reachable s → step s ev = Some s' → reachable s'.
Proof.
  intros [tr Htr] Hstep. exists (tr ++ [ev]).
  rewrite run_snoc, Htr. done.
Qed.

Lemma reachable_run s tr s' :
  reachable s → run s tr = Some s' → reachable s'.
Proof.
  revert s. induction tr as [|ev tr IH]; intros s Hs; simpl.
  - by intros [= <-].
  - destruct (step s ev) as [s1|] eqn:E; [|done].
    eauto using reachable_step.
Qed.

(** Induction over the reachable states. *)
Lemma reachable_inv (P : Server → Prop) :
  P init →
  (∀ s ev s', reachable s → P s → step s ev = Some s' → P s') →
  ∀ s, reachable s → P s.
Proof.
  intros Hinit Hstep s [tr Htr]. revert s Htr.
  induction tr as [|ev tr IH] using rev_ind; intros s.
  - by intros [= <-].
  - rewrite run_snoc. destruct (run init tr) as [s1|] eqn:E; [|done].
    simpl. intros Hs. eapply Hstep; [by exists tr| |done]. by apply IH.
Qed.

(** Case analysis of one step: the label, the resumed coroutine's position
    and the tests of the block. *)
Ltac step_inv H :=
  match type of H with
  | step _ ?ev = Some _ => destruct ev; simpl in H
  end;
  repeat (match type of H with
          | context [match decide ?P with _ => _ end] => destruct (decide P)
          | context [websocket_handler _ ?here _ _] =>
              destruct here; unfold websocket_handler in H
          | context [match ?x with _ => _ end] => destruct x eqn:?
          end; simpl in H);
  simplify_eq.

Lemma set_discard_absent ws s :
  ws ∉ active_websockets s → set_discard ws s = s.
Proof. intros. unfold set_discard. by case_decide. Qed.

Lemma set_discard_members ws s :
  active_websockets (set_discard ws s) = active_websockets s ∖ {[ws]}.
Proof. unfold set_discard. case_decide; simpl; set_solver. Qed.

Lemma set_add_members ws s :
  active_websockets (set_add ws s) = {[ws]} ∪ active_websockets s.
Proof. unfold set_add. case_decide; simpl; set_solver. Qed.

Lemma set_discard_fields ws s :
  tasks (set_discard ws s) = tasks s ∧ closed (set_discard ws s) = closed s
  ∧ next_ws (set_discard ws s) = next_ws s ∧ log (set_discard ws s) = log s.
Proof. unfold set_discard. by case_decide. Qed.

Lemma set_add_fields ws s :
  tasks (set_add ws s) = tasks s ∧ closed (set_add ws s) = closed s
  ∧ next_ws (set_add ws s) = next_ws s ∧ log (set_add ws s) = log s.
Proof. unfold set_add. by case_decide. Qed.

(** The inner loop, as far as its first suspension, on the fields of the
    state. *)
Lemma for_clients_fields ws todo data s :
  active_websockets (for_clients ws todo data s) = active_websockets s
  ∧ mutations (for_clients ws todo data s) = mutations s
  ∧ closed (for_clients ws todo data s) = closed s
  ∧ next_ws (for_clients ws todo data s) = next_ws s
  ∧ ∀ c, c ≠ ws → tasks (for_clients ws todo data s) !! c = tasks s !! c.
Proof.
  unfold for_clients. destruct (next_client _ _ _) as [[client rest]|]; simpl;
    repeat split; auto; intros; by rewrite lookup_insert_ne.
Qed.

Lemma next_client_Some ws cl todo client rest :
  next_client ws cl todo = Some (client, rest) →
  eligible ws cl client ∧
  ∃ skipped, todo = skipped ++ client :: rest
             ∧ Forall (λ c, ¬ eligible ws cl c) skipped.
Proof.
  revert client rest. induction todo as [|c todo IH]; intros client rest; simpl; [done|].
  case_decide as Hc.
  - intros Hn. simplify_eq. split; [done|]. by exists [].
  - intros Hn. destruct (IH _ _ Hn) as (He & skipped & -> & Hs).
    split; [done|]. exists (c :: skipped). split; [done|]. by constructor.
Qed.

Lemma next_client_None ws cl todo :
  next_client ws cl todo = None → Forall (λ c, ¬ eligible ws cl c) todo.
Proof.
  induction todo as [|c todo IH]; simpl; [by constructor|].
  case_decide; [done|]. intros Hn. constructor; auto.
Qed.

(** What the inner loop writes before it is next suspended: at most one
    [send_str], to a member that passes the guard of line 23. *)
Lemma for_clients_log ws todo data s :
  log (for_clients ws todo data s) = log s
  ∨ ∃ client, log (for_clients ws todo data s) = log s ++ [SendStr ws client data]
              ∧ client ∈ todo ∧ eligible ws (closed s) client.
Proof.
  unfold for_clients.
  destruct (next_client _ _ _) as [[client rest]|] eqn:E; simpl; [|by left].
  right. exists client. apply next_client_Some in E as (He & skipped & -> & _).
  split; [done|]. split; [|done]. set_solver.
Qed.

(** ** The set and its iterators *)

(** Every change of the set is counted. *)
Lemma step_mutations s ev s' :
  step s ev = Some s' →
  mutations s ≤ mutations s'
  ∧ (mutations s' = mutations s → active_websockets s' = active_websockets s).
Proof.
  intros H. step_inv H; simpl;
    rewrite ?(proj1 (for_clients_fields _ _ _ _)),
            ?(proj1 (proj2 (for_clients_fields _ _ _ _))); simpl;
    try (split; [lia|done]);
    unfold set_add, set_discard; destruct (decide (_ ∈ _)); simpl;
    (split; [lia|]); first [done|lia].
Qed.

Lemma for_clients_pc ws todo data s :
  tasks (for_clients ws todo data s) !! ws = Some Reading
  ∨ ∃ rest, tasks (for_clients ws todo data s) !! ws
              = Some (Sending (mkIter rest (size (active_websockets s)) (mutations s)) data)
            ∧ rest `suffix_of` todo.
Proof.
  unfold for_clients.
  destruct (next_client _ _ _) as [[client rest]|] eqn:E; simpl;
    rewrite lookup_insert_eq; [|by left].
  right. exists rest. split; [done|].
  apply next_client_Some in E as (_ & skipped & -> & _).
  exists (skipped ++ [client]). by rewrite <- app_assoc.
Qed.

Lemma iter_ok_for_clients ws todo data s :
  iter_ok s → Forall (λ c, c ∈ active_websockets s) todo →
  iter_ok (for_clients ws todo data s).
Proof.
  intros Hok Htodo c it d Hc.
  destruct (for_clients_fields ws todo data s) as (Hreg & Hmut & _ & _ & Hother).
  rewrite Hreg, Hmut.
  destruct (decide (c = ws)) as [->|Hne]; [|rewrite Hother in Hc by done; eauto].
  destruct (for_clients_pc ws todo data s) as [Hr|(rest & Hr & [pre ->])];
    rewrite Hr in Hc; simplify_eq; simpl.
  split; [done|]. intros _. split; [|done].
  by apply Forall_app in Htodo as [_ ?].
Qed.

(** A state that differs from [s] only by a position that is not a
    suspended [send_str], by the log, by the closed flags or by the next
    identity keeps the iterators of [s] sound. *)
Lemma iter_ok_same_set s s' :
  iter_ok s →
  mutations s ≤ mutations s' →
  (mutations s' = mutations s → active_websockets s' = active_websockets s) →
  (∀ ws it data, tasks s' !! ws = Some (Sending it data) →
                 tasks s !! ws = Some (Sending it data)) →
  iter_ok s'.
Proof.
  intros Hok Hle Heq Hpc ws it data Hws.
  destruct (Hok ws it data (Hpc _ _ _ Hws)) as [Hv Hsame].
  split; [lia|]. intros E.
  assert (mutations s' = mutations s) as Em by lia.
  rewrite (Heq Em). apply Hsame. lia.
Qed.

Lemma enumerates_elem_of order X c : enumerates order X → c ∈ order ↔ c ∈ X.
Proof. intros [_ <-]. by rewrite elem_of_list_to_set. Qed.

Lemma iter_ok_emit a s : iter_ok s → iter_ok (emit a s).
Proof. intros Hok. by eapply iter_ok_same_set. Qed.

Lemma iter_ok_set_pc ws p s :
  iter_ok s → (∀ it data, p ≠ Sending it data) → iter_ok (set_pc ws p s).
Proof.
  intros Hok Hp. eapply iter_ok_same_set; [done..|]; simpl.
  intros c it data. rewrite lookup_insert. case_decide; naive_solver.
Qed.

Lemma iter_ok_set_add ws s : iter_ok s → iter_ok (set_add ws s).
Proof.
  intros Hok. unfold set_add. case_decide; [done|].
  eapply iter_ok_same_set; [done|simpl; lia|simpl; lia|done].
Qed.

Lemma iter_ok_set_discard ws s : iter_ok s → iter_ok (set_discard ws s).
Proof.
  intros Hok. unfold set_discard. case_decide; [|done].
  eapply iter_ok_same_set; [done|simpl; lia|simpl; lia|done].
Qed.

Lemma iter_ok_exit_loop ws p s :
  iter_ok s → (∀ it data, p ≠ Sending it data) → iter_ok (exit_loop ws p s).
Proof.
  intros. unfold exit_loop, cleanup.
  apply iter_ok_set_pc; [|done]. by apply iter_ok_emit, iter_ok_set_discard.
Qed.

Lemma reachable_iter_ok s : reachable s → iter_ok s.
Proof.
  revert s. apply reachable_inv.
  - intros ws it data. unfold init; simpl. by rewrite lookup_empty.
  - intros s ev s' _ Hok Hstep.
    step_inv Hstep;
      try (by apply iter_ok_exit_loop);
      try (by apply iter_ok_emit; try apply iter_ok_emit);
      try (by apply iter_ok_set_pc; [try apply iter_ok_emit; try apply iter_ok_set_add|]).
    + apply iter_ok_for_clients; [by apply iter_ok_emit|]. simpl.
      apply Forall_forall. intros c Hc.
      by apply (enumerates_elem_of order (active_websockets s)).
    + apply iter_ok_for_clients; [done|].
      match goal with H : tasks s !! _ = Some (Sending _ _) |- _ =>
        destruct (Hok _ _ _ H) as [_ Hs] end.
      by destruct Hs as [Ht _].
    + apply iter_ok_for_clients; [done|].
      match goal with H : _ ∧ _ ∧ partial_enumeration _ _ |- _ =>
        destruct H as (_ & _ & _ & Ht) end. done.
    + by eapply iter_ok_same_set.
Qed.

(** ** The life of one handler *)

Lemma for_clients_in_loop ws todo data s :
  in_loop (tasks (for_clients ws todo data s) !! ws).
Proof.
  destruct (for_clients_pc ws todo data s) as [->|(rest & -> & _)]; done.
Qed.

(** A step of the coroutine of [c] moves it along the lines of the
    handler: from [prepare] into the loop with [c] added to the set or out
    by an exception with the set as it was; around the loop with the set as
    it was; out of the loop through the [finally] block, with [c] taken
    out of the set. *)
Lemma step_own s ev s' c :
  step s ev = Some s' → task_of ev = Some c →
  (tasks s !! c = Some Preparing ∧ tasks s' !! c = Some Reading
     ∧ active_websockets s' = {[c]} ∪ active_websockets s)
  ∨ (tasks s !! c = Some Preparing ∧ (∃ e, tasks s' !! c = Some (Aborted e))
     ∧ active_websockets s' = active_websockets s)
  ∨ (in_loop (tasks s !! c) ∧ in_loop (tasks s' !! c)
     ∧ active_websockets s' = active_websockets s)
  ∨ (in_loop (tasks s !! c) ∧ exited (tasks s' !! c)
     ∧ active_websockets s' = active_websockets s ∖ {[c]}).
Proof.
  intros Hstep Hc.
  step_inv Hstep; simpl in Hc; simplify_eq;
    unfold exit_loop, cleanup; simpl;
    rewrite ?lookup_insert_eq, ?set_add_members, ?set_discard_members,
      ?(proj1 (for_clients_fields _ _ _ _)); simpl;
    repeat match goal with
           | H : tasks s !! ?x = Some _ |- _ => rewrite !H; clear H
           end; simpl;
    try (by left);
    try (by right; left; eauto);
    try (by right; right; right);
    right; right; left; (split; [done|]); (split; [|done]);
    first [ apply for_clients_in_loop | done ].
Qed.

(** A step that does not resume the coroutine of [c] leaves it where it
    is, and leaves [c] in or out of the set as it was; the one step that
    creates the coroutine of [c] finds none. *)
Lemma step_frame s ev s' c :
  step s ev = Some s' → task_of ev ≠ Some c →
  (c ∈ active_websockets s' ↔ c ∈ active_websockets s)
  ∧ (tasks s' !! c = tasks s !! c
     ∨ (ev = Request ∧ c = next_ws s ∧ tasks s' !! c = Some Preparing)).
Proof.
  intros Hstep Hc.
  assert (∀ ws, Some ws ≠ Some c → ws ≠ c) as Hne by congruence.
  step_inv Hstep; simpl in Hc; try apply Hne in Hc;
    unfold exit_loop, cleanup; simpl;
    rewrite ?set_add_members, ?set_discard_members,
      ?(proj1 (for_clients_fields _ _ _ _)),
      ?(proj1 (set_add_fields _ _)), ?(proj1 (set_discard_fields _ _)); simpl;
    try (split; [set_solver|]);
    try (left; first [ done | by rewrite lookup_insert_ne
                     | by rewrite (proj2 (proj2 (proj2 (proj2
                            (for_clients_fields _ _ _ _)))) c) ]).
  destruct (decide (c = next_ws s)) as [->|?].
  - right. by rewrite lookup_insert_eq.
  - left. by rewrite lookup_insert_ne.
Qed.

(** No identity is given twice. *)
Lemma reachable_fresh s c :
  reachable s → is_Some (tasks s !! c) → c < next_ws s.
Proof.
  intros Hs. revert c. revert s Hs. apply (reachable_inv (λ s, ∀ c, is_Some (tasks s !! c) → c < next_ws s)).
  - intros c. unfold init; simpl. rewrite lookup_empty. by intros [? ?].
  - intros s ev s' _ IH Hstep c Hc.
    destruct (decide (task_of ev = Some c)) as [Hown|Hother].
    + assert (next_ws s' = next_ws s) as ->.
      { step_inv Hstep; simpl in Hown; simplify_eq; unfold exit_loop, cleanup; simpl;
          rewrite ?(proj1 (proj2 (proj2 (proj2 (for_clients_fields _ _ _ _))))),
            ?(proj1 (proj2 (proj2 (set_add_fields _ _)))),
            ?(proj1 (proj2 (proj2 (set_discard_fields _ _)))); done. }
      apply IH.
      destruct (step_own _ _ _ _ Hstep Hown)
        as [(H & _)|[(H & _)|[(H & _)|(H & _)]]];
        (destruct (tasks s !! c); [by eexists|done]).
    + destruct (step_frame _ _ _ _ Hstep Hother) as [_ [Heq|(-> & -> & _)]].
      * rewrite Heq in Hc. apply IH in Hc.
        assert (next_ws s ≤ next_ws s'); [|lia].
        clear -Hstep. step_inv Hstep; unfold exit_loop, cleanup; simpl;
          rewrite ?(proj1 (proj2 (proj2 (proj2 (for_clients_fields _ _ _ _))))),
            ?(proj1 (proj2 (proj2 (set_add_fields _ _)))),
            ?(proj1 (proj2 (proj2 (set_discard_fields _ _)))); simpl; lia.
      * simpl in Hstep. simplify_eq. simpl. lia.
Qed.

(** A coroutine that has ended is resumed no more. *)
Lemma step_finished s ev c p :
  tasks s !! c = Some p → task_of ev = Some c →
  match p with Returned | Raised _ | Aborted _ => True | _ => False end →
  step s ev = None.
Proof.
  intros Hpc Hev Hp.
  destruct ev; simpl in Hev; simplify_eq; simpl; rewrite Hpc; by destruct p.
Qed.

Lemma removals_snoc ws s tr s1 ev s2 :
  run s tr = Some s1 → step s1 ev = Some s2 →
  removals ws s (tr ++ [ev])
  = removals ws s tr
    + (if decide (ws ∈ active_websockets s1 ∧ ws ∉ active_websockets s2)
       then 1 else 0).
Proof.
  revert s. induction tr as [|e tr IH]; intros s Hrun Hstep; simpl in *.
  - simplify_eq. rewrite Hstep. lia.
  - destruct (step s e) as [s0|]; [|done]. rewrite (IH s0) by done. lia.
Qed.

(** ** One fan-out *)

Lemma step_Sent_in_sync s ws it data :
  tasks s !! ws = Some (Sending it data) →
  size (active_websockets s) = it_used it →
  mutations s = it_version it →
  step s (Sent ws) = Some (for_clients ws (it_todo it) data s).
Proof.
  intros Hpc Hsize Hver. simpl. rewrite Hpc. simpl. by rewrite !decide_True.
Qed.

(** The inner loop run to its end, every [send_str] returning before any
    other coroutine is resumed: it calls [send_str] once on each member of
    [todo] that passes the guard, in the order of [todo], and the coroutine
    is back at line 19. *)
Lemma fanout_run ws data todo s :
  ∃ s', run (for_clients ws todo data s)
            (replicate (length (filter (eligible ws (closed s)) todo)) (Sent ws))
        = Some s'
    ∧ log s' = log s ++ ((λ c, SendStr ws c data) <$> filter (eligible ws (closed s)) todo)
    ∧ tasks s' = <[ws := Reading]> (tasks s)
    ∧ active_websockets s' = active_websockets s
    ∧ mutations s' = mutations s
    ∧ closed s' = closed s
    ∧ next_ws s' = next_ws s.
Proof.
  revert s. induction todo as [|c todo IH]; intros s.
  - exists (set_pc ws Reading s). simpl. by rewrite app_nil_r.
  - destruct (decide (eligible ws (closed s) c)) as [Hc|Hc].
    + rewrite filter_cons_True by done.
      cbn [length replicate fmap list_fmap].
      unfold for_clients at 1. cbn [next_client]. rewrite decide_True by done.
      set (s1 := set_pc ws _ _). cbn [run].
      rewrite (step_Sent_in_sync s1 ws
                 (mkIter todo (size (active_websockets s)) (mutations s)) data);
        [|by apply lookup_insert_eq|done|done].
      destruct (IH s1) as (s' & Hrun & Hlog & Htasks & Hreg & Hmut & Hcl & Hnext).
      exists s'. split; [exact Hrun|].
      rewrite Hlog, Htasks, Hreg, Hmut, Hcl, Hnext. simpl.
      rewrite <- app_assoc, insert_insert_eq. done.
    + rewrite filter_cons_False by done.
      replace (for_clients ws (c :: todo) data s) with (for_clients ws todo data s).
      * apply IH.
      * unfold for_clients. simpl. by rewrite decide_False.
Qed.

(** The inner loop run as far as its write number [k], every earlier
    [send_str] returning before any other coroutine is resumed: it has
    called [send_str] on the first [k + 1] members of [todo] that pass the
    guard, and is suspended in the last of these calls. *)
Lemma fanout_prefix ws data todo s k :
  k < length (filter (eligible ws (closed s)) todo) →
  ∃ s' it, run (for_clients ws todo data s) (replicate k (Sent ws)) = Some s'
    ∧ log s' = log s ++ ((λ c, SendStr ws c data)
                         <$> take (S k) (filter (eligible ws (closed s)) todo))
    ∧ tasks s' = <[ws := Sending it data]> (tasks s)
    ∧ active_websockets s' = active_websockets s
    ∧ mutations s' = mutations s
    ∧ closed s' = closed s.
Proof.
  revert s k. induction todo as [|c todo IH]; intros s k; [simpl; lia|].
  destruct (decide (eligible ws (closed s) c)) as [Hc|Hc].
  - rewrite filter_cons_True by done. cbn [length]. intros Hk.
    unfold for_clients at 1. cbn [next_client]. rewrite decide_True by done.
    set (s1 := set_pc ws _ _).
    destruct k as [|k].
    + exists s1, (mkIter todo (size (active_websockets s)) (mutations s)).
      by cbn.
    + cbn [replicate run].
      rewrite (step_Sent_in_sync s1 ws
                 (mkIter todo (size (active_websockets s)) (mutations s)) data);
        [|by apply lookup_insert_eq|done|done].
      destruct (IH s1 k) as (s' & it & Hrun & Hlog & Htasks & Hreg & Hmut & Hcl);
        [simpl; lia|].
      exists s', it. split; [exact Hrun|].
      rewrite Hlog, Htasks, Hreg, Hmut, Hcl. simpl.
      rewrite <- app_assoc, insert_insert_eq. done.
  - rewrite filter_cons_False by done.
    replace (for_clients ws (c :: todo) data s) with (for_clients ws todo data s).
    + apply IH.
    + unfold for_clients. simpl. by rewrite decide_False.
Qed.

(** Every [send_str] a step calls is called by the coroutine the step
    resumes, on a member of the set that passes the guard of line 23. *)
Lemma step_sends s ev s' :
  iter_ok s → step s ev = Some s' →
  ∃ new, log s' = log s ++ new
    ∧ ∀ a b d, SendStr a b d ∈ new →
        task_of ev = Some a ∧ b ∈ active_websockets s ∧ eligible a (closed s) b.
Proof.
  intros Hok Hstep.
  assert (∀ ws todo data s0,
    Forall (λ c, c ∈ active_websockets s) todo → closed s0 = closed s →
    ∃ new, log (for_clients ws todo data s0) = log s0 ++ new
      ∧ ∀ a b d, SendStr a b d ∈ new →
          Some ws = Some a ∧ b ∈ active_websockets s ∧ eligible a (closed s) b)
    as Hfor.
  { intros ws todo data s0 Htodo Hcl.
    destruct (for_clients_log ws todo data s0) as [->|(client & -> & Hin & Hel)].
    - exists []. rewrite app_nil_r. split; [done|]. intros ??? Hx. inversion Hx.
    - exists [SendStr ws client data]. split; [done|].
      intros a b d Hx. apply list_elem_of_singleton in Hx. simplify_eq.
      rewrite Forall_forall in Htodo. rewrite <- Hcl. auto. }
  step_inv Hstep; simpl;
    try (rewrite ?(proj2 (proj2 (proj2 (set_add_fields _ _)))),
                 ?(proj2 (proj2 (proj2 (set_discard_fields _ _)))),
                 <- ?app_assoc;
         first [ by exists []; rewrite app_nil_r; split;
                    [|intros ??? Hx; inversion Hx]
               | by eexists; split; [reflexivity|];
                    intros ??? Hx; repeat (apply elem_of_cons in Hx as [Hx|Hx];
                                           [discriminate Hx|]); inversion Hx ]).
  - destruct (Hfor ws order (msg_data msg) (emit (Received ws msg) s))
      as (new & -> & Hnew); [|done|].
    { apply Forall_forall. intros c Hc.
      by apply (enumerates_elem_of order (active_websockets s)). }
    simpl. exists (Received ws msg :: new). split; [by rewrite <- app_assoc|].
    intros a b d Hx. apply elem_of_cons in Hx as [?|Hx]; [done|]. by apply (Hnew a b d).
  - apply Hfor; [|done].
    match goal with H : tasks s !! _ = Some (Sending _ _) |- _ =>
      destruct (Hok _ _ _ H) as [_ Hs] end.
    by destruct Hs as [Ht _].
  - apply Hfor; [|done].
    match goal with H : _ ∧ _ ∧ partial_enumeration _ _ |- _ =>
      destruct H as (_ & _ & _ & Ht) end. done.
Qed.

Lemma step_Recv_text s ws data order :
  tasks s !! ws = Some Reading → enumerates order (active_websockets s) →
  step s (Recv ws (text data) order)
  = Some (for_clients ws order data (emit (Received ws (text data)) s)).
Proof. intros Hpc Horder. simpl. rewrite Hpc. simpl. by rewrite decide_True. Qed.

(** ** The log *)

Lemma last_received_snoc ws l a :
  last_received ws (l ++ [a]) = note ws (last_received ws l) a.
Proof. unfold last_received. by rewrite foldl_snoc. Qed.

Lemma verbatim_nil : verbatim [].
Proof. intros pre ws client data post H. by destruct pre. Qed.

Lemma verbatim_prefix l x : verbatim (l ++ [x]) → verbatim l.
Proof.
  intros Hv pre ws client data post ->.
  apply (Hv pre ws client data (post ++ [x])). by rewrite <- app_assoc.
Qed.

Lemma snoc_eq_app_cons {A} (l pre post : list A) (x y : A) :
  l ++ [x] = pre ++ y :: post →
  (post = [] ∧ pre = l ∧ y = x) ∨ (∃ post', post = post' ++ [x] ∧ l = pre ++ y :: post').
Proof.
  destruct post as [|z post _] using rev_ind.
  - intros H. apply app_inj_tail in H as [-> ->]. by left.
  - intros H. right. exists post.
    rewrite app_comm_cons, app_assoc in H. apply app_inj_tail in H as [-> ->].
    done.
Qed.

Lemma verbatim_snoc_other l x :
  verbatim l → (∀ ws client data, x ≠ SendStr ws client data) →
  verbatim (l ++ [x]).
Proof.
  intros Hv Hx pre ws client data post H.
  apply snoc_eq_app_cons in H as [(_ & _ & H)|(post' & _ & ->)].
  - by destruct (Hx ws client data).
  - by eapply Hv.
Qed.

Lemma verbatim_snoc_send l ws client data :
  verbatim l → last_received ws l = Some (text data) →
  verbatim (l ++ [SendStr ws client data]).
Proof.
  intros Hv Hl pre ws' client' data' post H.
  apply snoc_eq_app_cons in H as [(_ & -> & H)|(post' & _ & ->)].
  - by simplify_eq.
  - by eapply Hv.
Qed.

Lemma log_ok_same s s' :
  log_ok s → log s' = log s →
  (∀ ws it data, tasks s' !! ws = Some (Sending it data) →
                 tasks s !! ws = Some (Sending it data)) →
  log_ok s'.
Proof. intros [Hv Hq] Hlog Htasks. split; rewrite Hlog; eauto. Qed.

Lemma log_ok_set_pc ws p s :
  log_ok s → (∀ it data, p ≠ Sending it data) → log_ok (set_pc ws p s).
Proof.
  intros Hok Hp. eapply log_ok_same; [done..|]. simpl.
  intros c it data. rewrite lookup_insert. case_decide; naive_solver.
Qed.

Lemma log_ok_set_add ws s : log_ok s → log_ok (set_add ws s).
Proof. intros. unfold set_add. by case_decide. Qed.

Lemma log_ok_set_discard ws s : log_ok s → log_ok (set_discard ws s).
Proof. intros. unfold set_discard. by case_decide. Qed.

Lemma log_ok_print ws l s : log_ok s → log_ok (emit (Print ws l) s).
Proof.
  intros [Hv Hq]. split; simpl.
  - by apply verbatim_snoc_other.
  - intros c it data Hc. rewrite last_received_snoc. simpl. eauto.
Qed.

Lemma log_ok_received ws msg s :
  log_ok s → tasks s !! ws = Some Reading → log_ok (emit (Received ws msg) s).
Proof.
  intros [Hv Hq] Hpc. split; simpl.
  - by apply verbatim_snoc_other.
  - intros c it data Hc. rewrite last_received_snoc. simpl.
    case_decide; [congruence|eauto].
Qed.

Lemma log_ok_exit_loop ws p s :
  log_ok s → (∀ it data, p ≠ Sending it data) → log_ok (exit_loop ws p s).
Proof.
  intros. unfold exit_loop, cleanup.
  apply log_ok_set_pc; [|done]. by apply log_ok_print, log_ok_set_discard.
Qed.

Lemma log_ok_for_clients ws todo data s :
  log_ok s → last_received ws (log s) = Some (text data) →
  log_ok (for_clients ws todo data s).
Proof.
  intros [Hv Hq] Hl. unfold for_clients.
  destruct (next_client _ _ _) as [[client rest]|].
  - split; simpl.
    + by apply verbatim_snoc_send.
    + intros c it d. rewrite last_received_snoc, lookup_insert. simpl.
      case_decide; [|by eauto]. by intros; simplify_eq.
  - by apply log_ok_set_pc.
Qed.

Lemma reachable_log_ok s : reachable s → log_ok s.
Proof.
  revert s. apply reachable_inv.
  - split; [apply verbatim_nil|]. intros ws it data. simpl. by rewrite lookup_empty.
  - intros s ev s' _ Hok Hstep.
    step_inv Hstep;
      try (by apply log_ok_exit_loop);
      try (by repeat first [ apply log_ok_print | apply log_ok_received ]);
      try (by apply log_ok_set_pc; [try apply log_ok_print; try apply log_ok_set_add|]).
    + apply log_ok_for_clients; [by apply log_ok_received|]. simpl.
      rewrite last_received_snoc. simpl. rewrite decide_True by done.
      destruct msg; simpl in *; by subst.
    + apply log_ok_for_clients; [done|]. by eapply (proj2 Hok).
    + apply log_ok_for_clients; [done|]. by eapply (proj2 Hok).
Qed.

Lemma last_text_received ws l data :
  last_received ws l = Some (text data) →
  ∃ before, texts_received ws l = before ++ [data].
Proof.
  induction l as [|a l IH] using rev_ind; [done|].
  rewrite last_received_snoc. unfold texts_received in *. rewrite omap_app.
  destruct a as [ws' msg| |]; simpl;
    try (intros H; destruct (IH H) as [before ->]; exists before;
         by rewrite app_nil_r).
  destruct msg as [ty d]. case_decide.
  - intros [= -> ->]. simpl. by eexists.
  - intros Hl. destruct (IH Hl) as [before ->]. exists before.
    destruct ty; simpl; by rewrite app_nil_r.
Qed.

(** In a [verbatim] log the writes of a handler come in blocks, one per
    text message it took, in the order it took them. *)
Lemma verbatim_blocks ws l :
  verbatim l →
  ∃ counts, length counts = length (texts_received ws l)
    ∧ payloads_sent ws l
      = mjoin (zip_with replicate counts (texts_received ws l)).
Proof.
  induction l as [|a l IH] using rev_ind; intros Hv.
  - by exists [].
  - destruct (IH (verbatim_prefix _ _ Hv)) as (counts & Hlen & Hpay).
    unfold texts_received, payloads_sent in *. rewrite !omap_app.
    destruct (payload_of ws a) as [d|] eqn:Hsend.
    + destruct a as [|ws' client d'|]; simpl in Hsend; try done.
      case_decide; simplify_eq.
      assert (last_received ws l = Some (text d)) as Hl by by eapply Hv.
      destruct (last_text_received _ _ _ Hl) as [before Hb].
      unfold texts_received in Hb. rewrite Hb in *.
      destruct counts as [|n counts _] using rev_ind.
      { rewrite length_app in Hlen. simpl in Hlen. lia. }
      rewrite !length_app in Hlen. simpl in Hlen.
      exists (counts ++ [S n]). simpl.
      rewrite app_nil_r, !length_app. split; [simpl; lia|].
      rewrite Hpay, !zip_with_app, !join_app by lia.
      rewrite decide_True by done. simpl.
      rewrite !app_nil_r, <- app_assoc. f_equal.
      by rewrite replicate_cons_app.
    + destruct (text_of ws a) as [d|] eqn:Htext.
      * exists (counts ++ [0]). simpl. rewrite Hsend, Htext. simpl.
        rewrite !length_app. split; [simpl; lia|].
        rewrite zip_with_app, join_app by done. simpl.
        by rewrite Hpay, !app_nil_r.
      * exists counts. simpl. rewrite Hsend, Htext. simpl.
        by rewrite !app_nil_r.
Qed.

(** ** What the specification says of the relay loop *)

Lemma three_clients_reachable : reachable three_clients.
Proof. exists three_connected. vm_compute. reflexivity. Qed.

(** C1, as the code has it.  When the handler of [ws] takes a text
    message while it waits at line 19, the connections it is to write to
    are the members of [active_websockets] other than [ws] whose [closed]
    flag is not set, each once, in the order the set is traversed.  If
    every [send_str] returns before another coroutine is resumed, the
    handler calls [send_str] with the message's data on exactly these and
    is back at line 19 with the set unchanged.  If one of these calls
    raises, the handler has called [send_str] on the targets up to that one
    and on no later one, and ends with the exception.  Whatever else
    happens, no step from a reachable state calls [send_str] on anything
    but a member of the set that is not the caller and not closed. *)
Theorem broadcast_targets (s : Server) (ws : conn) (data : string)
    (order : list conn) :
  reachable s →
  tasks s !! ws = Some Reading →
  enumerates order (active_websockets s) →
  let targets := filter (eligible ws (closed s)) order in
  (∀ c, c ∈ targets ↔ c ∈ active_websockets s ∧ c ≠ ws ∧ c ∉ closed s)
  ∧ NoDup targets
  ∧ (ws ∉ targets)
  ∧ (∃ s', run s ([Recv ws (text data) order]
                    ++ replicate (length targets) (Sent ws)) = Some s'
       ∧ new_actions s s'
         = Received ws (text data) :: ((λ c, SendStr ws c data) <$> targets)
       ∧ tasks s' !! ws = Some Reading
       ∧ active_websockets s' = active_websockets s)
  ∧ (∀ k e, k < length targets →
       ∃ s', run s ([Recv ws (text data) order]
                      ++ replicate k (Sent ws) ++ [SendRaise ws e]) = Some s'
         ∧ new_actions s s'
           = Received ws (text data)
             :: ((λ c, SendStr ws c data) <$> take (S k) targets)
             ++ [Print ws Device_disconnected]
         ∧ tasks s' !! ws = Some (Raised e))
  ∧ (∀ ev s1 a b d, step s ev = Some s1 → SendStr a b d ∈ new_actions s s1 →
       a ≠ b ∧ b ∈ active_websockets s ∧ b ∉ closed s).
Proof.
  intros Hreach Hpc Horder targets.
  assert (∀ c, c ∈ targets ↔ c ∈ active_websockets s ∧ c ≠ ws ∧ c ∉ closed s)
    as Hiff.
  { intros c. unfold targets. rewrite list_elem_of_filter.
    rewrite (enumerates_elem_of order (active_websockets s)) by done.
    unfold eligible. tauto. }
  split; [exact Hiff|]. split; [apply NoDup_filter, Horder|].
  split; [rewrite Hiff; tauto|]. split; [|split].
  - cbn [app run]. rewrite step_Recv_text by done.
    destruct (fanout_run ws data order (emit (Received ws (text data)) s))
      as (s' & Hrun & Hlog & Htasks & Hreg & _).
    exists s'. split; [exact Hrun|]. unfold new_actions.
    rewrite Hlog, Htasks, Hreg. simpl.
    rewrite <- app_assoc, drop_app_length, lookup_insert_eq. done.
  - intros k e Hk. cbn [app run]. rewrite step_Recv_text by done.
    destruct (fanout_prefix ws data order (emit (Received ws (text data)) s) k Hk)
      as (s1 & it & Hrun & Hlog & Htasks & _).
    rewrite run_snoc, Hrun.
    exists (exit_loop ws (Raised e) s1). split.
    + simpl. by rewrite Htasks, lookup_insert_eq.
    + unfold new_actions, exit_loop, cleanup. simpl.
      rewrite (proj2 (proj2 (proj2 (set_discard_fields ws s1)))), Hlog. simpl.
      rewrite <- !app_assoc, drop_app_length, lookup_insert_eq. done.
  - intros ev s1 a b d Hstep Hin.
    destruct (step_sends s ev s1 (reachable_iter_ok s Hreach) Hstep)
      as (new & Hlog & Hnew).
    unfold new_actions in Hin. rewrite Hlog, drop_app_length in Hin.
    destruct (Hnew a b d Hin) as (_ & Hb & Hne & Hcl). done.
Qed.

Lemma broadcast_targets_witness :
  (∃ s', run three_clients [Recv 0 (text "hello") [2; 0; 1]; Sent 0; Sent 0]
         = Some s'
       ∧ new_actions three_clients s'
         = [Received 0 (text "hello"); SendStr 0 2 "hello"; SendStr 0 1 "hello"]
       ∧ tasks s' !! 0 = Some Reading
       ∧ active_websockets s' = active_websockets three_clients).
Proof.
  exact (proj1 (proj2 (proj2 (proj2
    (broadcast_targets three_clients 0 "hello" [2; 0; 1]
       three_clients_reachable ltac:(vm_compute; reflexivity)
       ltac:(compute_done)))))).
Defined.

(** C1, as the specification states it, fails.  Connections 0, 1 and 2 are registered
    and open; 0 takes the text "rpm=9000", the set is traversed in the
    order 2, 0, 1, and the write to 2 raises.  Connection 1 is in the set,
    is not the sender and is not closed, and [send_str] is never called on
    it for this message. *)
Lemma broadcast_targets_counterexample :
  ∃ s', run three_clients
          [Recv 0 (text "rpm=9000") [2; 0; 1]; SendRaise 0 connection_reset]
        = Some s'
    ∧ new_actions three_clients s'
      = [Received 0 (text "rpm=9000"); SendStr 0 2 "rpm=9000";
         Print 0 Device_disconnected]
    ∧ 1 ∈ active_websockets three_clients
    ∧ (1 ∉ closed three_clients)
    ∧ 1 ∈ active_websockets s'
    ∧ (1 ∉ closed s').
Proof.
  exists (default init
            (run three_clients
               [Recv 0 (text "rpm=9000") [2; 0; 1];
                SendRaise 0 connection_reset])).
  split; [vm_compute; reflexivity|]. repeat split; compute_done.
Qed.

(** C4.  Along every run of the server and for every connection: while
    its handler is inside the loop (from the return of [prepare] on) the
    connection is in [active_websockets] and has never been taken out of
    it; once the handler has left the loop, by the end of the message
    stream or by any exception, the connection is out of the set and has
    been taken out of it exactly once; before [prepare] returns, or when
    [prepare] raised, it has never been in the set. *)
Theorem registry_lifecycle (tr : list event) (s : Server) (ws : conn) :
  run init tr = Some s →
  match tasks s !! ws with
  | Some Reading | Some (Sending _ _) =>
      ws ∈ active_websockets s ∧ removals ws init tr = 0
  | Some Returned | Some (Raised _) =>
      (ws ∉ active_websockets s) ∧ removals ws init tr = 1
  | Some Preparing | Some (Aborted _) | None =>
      (ws ∉ active_websockets s) ∧ removals ws init tr = 0
  end.
Proof.
  revert s. induction tr as [|ev tr IH] using rev_ind; intros s.
  - intros [= <-]. simpl. rewrite lookup_empty. split; [set_solver|done].
  - rewrite run_snoc. destruct (run init tr) as [s1|] eqn:Hrun; [|done].
    simpl. intros Hstep. specialize (IH s1 eq_refl).
    rewrite (removals_snoc ws init tr s1 ev s) by done.
    destruct (decide (task_of ev = Some ws)) as [Hown|Hother].
    + destruct (step_own _ _ _ _ Hstep Hown)
        as [(H1 & H2 & Hreg)|[(H1 & (e & H2) & Hreg)|[(H1 & H2 & Hreg)|(H1 & H2 & Hreg)]]];
        rewrite Hreg; destruct (tasks s1 !! ws) as [[]|]; simplify_eq; try done;
        destruct (tasks s !! ws) as [[]|]; simplify_eq; try done;
        destruct IH as [IH1 IH2]; rewrite IH2;
        case_decide; split; try lia; set_solver.
    + destruct (step_frame _ _ _ _ Hstep Hother) as [Hreg [Heq|(-> & -> & Heq)]].
      * rewrite Heq.
        rewrite decide_False by (rewrite Hreg; tauto).
        rewrite Nat.add_0_r.
        destruct (tasks s1 !! ws) as [[]|]; rewrite Hreg; exact IH.
      * rewrite Heq. rewrite decide_False by (rewrite Hreg; tauto).
        rewrite Nat.add_0_r. rewrite Hreg.
        destruct (tasks s1 !! next_ws s1) as [p|] eqn:Hp; [|exact IH].
        assert (next_ws s1 < next_ws s1); [|lia].
        apply reachable_fresh; [by exists tr|by eexists].
Qed.

Lemma registry_lifecycle_witness :
  (1 ∉ active_websockets (default init (run init one_life)))
  ∧ removals 1 init one_life = 1.
Proof.
  exact (registry_lifecycle one_life (default init (run init one_life)) 1
           ltac:(vm_compute; reflexivity)).
Defined.

(** C2, as the code has it.  When the pending [send_str] of the handler
    of [ws] raises, nothing catches the exception inside the loop: the
    inner loop is abandoned without another [send_str], the [finally]
    block takes [ws] out of the set and prints, the exception leaves the
    handler, and the handler is never resumed.  The step itself resumes no
    other coroutine and sets no closed flag; a handler that is suspended
    in a write of its own meets the changed size of the set when its write
    returns (line 22).  What the loop does pass over without a write, and
    without an error, is a member whose [closed] flag is set. *)
Theorem write_failure_ends_sender (s : Server) (ws : conn)
    (it : set_iterator) (data : string) (e : exn) :
  tasks s !! ws = Some (Sending it data) →
  ∃ s', step s (SendRaise ws e) = Some s'
    ∧ new_actions s s' = [Print ws Device_disconnected]
    ∧ tasks s' = <[ws := Raised e]> (tasks s)
    ∧ active_websockets s' = active_websockets s ∖ {[ws]}
    ∧ closed s' = closed s
    ∧ (∀ ev, task_of ev = Some ws → step s' ev = None)
    ∧ (∀ client todo, client ∈ closed s →
         for_clients ws (client :: todo) data s = for_clients ws todo data s).
Proof.
  intros Hpc. exists (exit_loop ws (Raised e) s).
  split; [by simpl; rewrite Hpc|].
  unfold new_actions, exit_loop, cleanup. simpl.
  rewrite set_discard_members.
  destruct (set_discard_fields ws s) as (-> & -> & _ & ->).
  rewrite drop_app_length. repeat split.
  - intros ev Hev. eapply step_finished; [|exact Hev|];
      [simpl; apply lookup_insert_eq|done].
  - intros client todo Hclosed. unfold for_clients. simpl.
    rewrite decide_False; [done|]. unfold eligible. tauto.
Qed.

Lemma write_failure_ends_sender_witness :
  ∃ s', step (default init (run three_clients [Recv 0 (text "hello") [0; 1; 2]]))
             (SendRaise 0 connection_reset) = Some s'
    ∧ new_actions
        (default init (run three_clients [Recv 0 (text "hello") [0; 1; 2]])) s'
      = [Print 0 Device_disconnected]
    ∧ tasks s' = <[0 := Raised connection_reset]>
        (tasks (default init (run three_clients [Recv 0 (text "hello") [0; 1; 2]])))
    ∧ active_websockets s'
      = active_websockets
          (default init (run three_clients [Recv 0 (text "hello") [0; 1; 2]]))
        ∖ {[0]}
    ∧ closed s'
      = closed (default init (run three_clients [Recv 0 (text "hello") [0; 1; 2]]))
    ∧ (∀ ev, task_of ev = Some 0 → step s' ev = None)
    ∧ (∀ client todo,
         client ∈ closed (default init
                            (run three_clients [Recv 0 (text "hello") [0; 1; 2]])) →
         for_clients 0 (client :: todo) "hello"
           (default init (run three_clients [Recv 0 (text "hello") [0; 1; 2]]))
         = for_clients 0 todo "hello"
             (default init (run three_clients [Recv 0 (text "hello") [0; 1; 2]]))).
Proof.
  exact (write_failure_ends_sender
           (default init (run three_clients [Recv 0 (text "hello") [0; 1; 2]]))
           0 (mkIter [2] 3 3) "hello" connection_reset
           ltac:(vm_compute; reflexivity)).
Defined.

(** C2, as the specification states it, fails.  Connections 0, 1 and 2 are registered
    and open; 0 takes the text "hello", the set is traversed in the order
    0, 1, 2, and the write to 1 raises.  Then [send_str] is never called on
    2, which is still registered and open, and the handler of 0 has ended
    with the exception, 0 being out of the set: it reads no more. *)
Lemma write_failure_counterexample :
  ∃ s', run three_clients
          [Recv 0 (text "hello") [0; 1; 2]; SendRaise 0 connection_reset]
        = Some s'
    ∧ new_actions three_clients s'
      = [Received 0 (text "hello"); SendStr 0 1 "hello";
         Print 0 Device_disconnected]
    ∧ tasks s' !! 0 = Some (Raised connection_reset)
    ∧ (0 ∉ active_websockets s')
    ∧ 2 ∈ active_websockets s' ∧ (2 ∉ closed s')
    ∧ tasks s' !! 2 = Some Reading
    ∧ step s' (Recv 0 (text "again") [1; 2]) = None.
Proof.
  exists (default init
            (run three_clients
               [Recv 0 (text "hello") [0; 1; 2]; SendRaise 0 connection_reset])).
  split; [vm_compute; reflexivity|]. repeat split; compute_done.
Qed.

(** C10.  A message that is neither TEXT nor ERROR (BINARY among them),
    taken at line 19, runs no branch of the body: no [send_str] is called,
    nothing is printed, the set, the closed flags and every coroutine's
    position are as they were; the handler waits at line 19 and takes the
    next message. *)
Theorem other_frame_is_ignored (s : Server) (ws : conn) (msg : WSMessage)
    (order : list conn) :
  tasks s !! ws = Some Reading →
  msg_type msg ≠ TEXT → msg_type msg ≠ ERROR →
  ∃ s1, step s (Recv ws msg order) = Some s1
    ∧ new_actions s s1 = [Received ws msg]
    ∧ tasks s1 = tasks s
    ∧ active_websockets s1 = active_websockets s
    ∧ mutations s1 = mutations s
    ∧ closed s1 = closed s
    ∧ ∀ msg' order', enumerates order' (active_websockets s1) →
        is_Some (step s1 (Recv ws msg' order')).
Proof.
  intros Hpc Htext Herror. exists (emit (Received ws msg) s).
  split; [simpl; rewrite Hpc; simpl; by destruct (msg_type msg)|].
  unfold new_actions. simpl. rewrite drop_app_length. repeat split.
  intros msg' order' Horder. rewrite Hpc. simpl. rewrite decide_True by done.
  destruct (msg_type msg'); by eexists.
Qed.

Lemma other_frame_is_ignored_witness :
  ∃ s1, step three_clients (Recv 0 (mkMsg BINARY "bytes") [0; 1; 2]) = Some s1
    ∧ new_actions three_clients s1 = [Received 0 (mkMsg BINARY "bytes")]
    ∧ tasks s1 = tasks three_clients
    ∧ active_websockets s1 = active_websockets three_clients
    ∧ mutations s1 = mutations three_clients
    ∧ closed s1 = closed three_clients
    ∧ ∀ msg' order', enumerates order' (active_websockets s1) →
        is_Some (step s1 (Recv 0 msg' order')).
Proof.
  exact (other_frame_is_ignored three_clients 0 (mkMsg BINARY "bytes") [0; 1; 2]
           ltac:(vm_compute; reflexivity) ltac:(discriminate) ltac:(discriminate)).
Defined.

(** C5.  [discard] of a connection that is not in the set changes nothing,
    and the [finally] block run a second time for the same connection
    leaves the set, its size and its count of changes as the first run
    left them; the block has no exceptional outcome, it is a function from
    states to states. *)
Theorem cleanup_twice (s : Server) (ws : conn) :
  (ws ∉ active_websockets s → set_discard ws s = s)
  ∧ active_websockets (cleanup ws (cleanup ws s))
    = active_websockets (cleanup ws s)
  ∧ size (active_websockets (cleanup ws (cleanup ws s)))
    = size (active_websockets (cleanup ws s))
  ∧ mutations (cleanup ws (cleanup ws s)) = mutations (cleanup ws s)
  ∧ (ws ∉ active_websockets (cleanup ws s)).
Proof.
  assert (ws ∉ active_websockets (cleanup ws s)) as Hout.
  { unfold cleanup. simpl. rewrite set_discard_members. set_solver. }
  assert (set_discard ws (cleanup ws s) = cleanup ws s) as Hid
    by by apply set_discard_absent.
  assert (cleanup ws (cleanup ws s)
          = emit (Print ws Device_disconnected) (cleanup ws s)) as ->.
  { unfold cleanup at 1. by rewrite Hid. }
  split; [apply set_discard_absent|]. by simpl.
Qed.

(** C8.  In every run, at every [send_str] the data passed is the data of
    the message the calling handler took last, and that message is a text
    message: the string goes out as it came in, whatever it is. *)
Theorem relay_is_verbatim (tr : list event) (s : Server)
    (pre post : list action) (ws client : conn) (data : string) :
  run init tr = Some s →
  log s = pre ++ SendStr ws client data :: post →
  last_received ws pre = Some (mkMsg TEXT data).
Proof.
  intros Hrun Hlog.
  assert (reachable s) as Hs by by exists tr.
  destruct (reachable_log_ok s Hs) as [Hv _]. by eapply Hv.
Qed.

Lemma relay_is_verbatim_witness :
  last_received 0
    [Print 0 Device_connected; Print 1 Device_connected;
     Print 2 Device_connected; Received 0 (text long_text);
     SendStr 0 1 long_text]
  = Some (mkMsg TEXT long_text).
Proof.
  exact (relay_is_verbatim
           (three_connected ++ [Recv 0 (text long_text) [0; 1; 2]; Sent 0; Sent 0])
           (default init
              (run init (three_connected
                         ++ [Recv 0 (text long_text) [0; 1; 2]; Sent 0; Sent 0])))
           [Print 0 Device_connected; Print 1 Device_connected;
            Print 2 Device_connected; Received 0 (text long_text);
            SendStr 0 1 long_text]
           [] 0 2 long_text
           ltac:(vm_compute; reflexivity) ltac:(vm_compute; reflexivity)).
Defined.

(** C6 fails on the code.  A handler resumed from a write after the size
    of the set changed gets [RuntimeError] from the iterator of line 22 and
    leaves through the [finally] block.  So it goes in this run:
    connections 0, 1 and 2 are registered and open, a fourth request is in
    [prepare].  The handler of 0 takes the text "hello"; the set is
    traversed in the order 1, 0, 2 and the handler is suspended in the
    write to 1.  Before that write returns, [prepare] of connection 3
    returns and line 14 adds 3 to the set.  When the handler of 0 is
    resumed, [send_str] is never called on 2, the handler of 0 ends with
    the exception and 0 is taken out of the set. *)
Theorem join_during_fanout_raises :
  (∀ s ws it data,
     tasks s !! ws = Some (Sending it data) →
     size (active_websockets s) ≠ it_used it →
     step s (Sent ws) = Some (exit_loop ws (Raised set_changed_size) s))
  ∧ ∃ s', run init join_during_fanout = Some s'
    ∧ log s'
      = [Print 0 Device_connected; Print 1 Device_connected;
         Print 2 Device_connected; Received 0 (text "hello");
         SendStr 0 1 "hello"; Print 3 Device_connected;
         Print 0 Device_disconnected]
    ∧ tasks s' !! 0 = Some (Raised set_changed_size)
    ∧ (0 ∉ active_websockets s')
    ∧ 2 ∈ active_websockets s' ∧ (2 ∉ closed s')
    ∧ tasks s' !! 2 = Some Reading.
Proof.
  split.
  - intros s ws it data Hpc Hsize. simpl. rewrite Hpc. simpl.
    by rewrite decide_False.
  - exists (default init (run init join_during_fanout)).
    split; [vm_compute; reflexivity|]. repeat split; compute_done.
Qed.

(** ** The set, the handlers and the log along every run *)

(** The set holds the connections whose handler is inside the loop, and
    no other. *)
Lemma reachable_member s c :
  reachable s → (c ∈ active_websockets s ↔ in_loop (tasks s !! c)).
Proof.
  intros Hs. revert c. revert s Hs.
  apply (reachable_inv
           (λ s, ∀ c, c ∈ active_websockets s ↔ in_loop (tasks s !! c))).
  - intros c. simpl. rewrite lookup_empty. set_solver.
  - intros s ev s' Hs IH Hstep c. specialize (IH c).
    destruct (decide (task_of ev = Some c)) as [Hown|Hother].
    + destruct (step_own _ _ _ _ Hstep Hown)
        as [(H1 & H2 & Hreg)|[(H1 & (e & H2) & Hreg)|[(H1 & H2 & Hreg)|(H1 & H2 & Hreg)]]];
        rewrite Hreg.
      * rewrite H2. set_solver.
      * rewrite H2. rewrite H1 in IH. simpl in *. done.
      * tauto.
      * destruct (tasks s' !! c) as [[]|]; simpl in *; set_solver.
    + destruct (step_frame _ _ _ _ Hstep Hother) as [Hreg [Heq|(-> & -> & Heq)]].
      * rewrite Hreg, Heq. done.
      * rewrite Hreg, Heq. simpl.
        destruct (tasks s !! next_ws s) as [p|] eqn:Hp; [|done].
        assert (next_ws s < next_ws s); [|lia].
        apply reachable_fresh; [done|by eexists].
Qed.

Lemma step_closed s ev s' a :
  step s ev = Some s' → task_of ev = Some a → closed s' = closed s.
Proof.
  intros Hstep Ha.
  step_inv Hstep; simpl in Ha; simplify_eq; unfold exit_loop, cleanup; simpl;
    rewrite ?(proj1 (proj2 (proj2 (for_clients_fields _ _ _ _)))),
      ?(proj1 (proj2 (set_add_fields _ _))),
      ?(proj1 (proj2 (set_discard_fields _ _))); done.
Qed.

Lemma step_closed_mono s ev s' c :
  step s ev = Some s' → c ∈ closed s → c ∈ closed s'.
Proof.
  intros Hstep Hc.
  destruct (task_of ev) as [a|] eqn:Ha.
  - by rewrite (step_closed _ _ _ _ Hstep Ha).
  - destruct ev; simpl in Ha; simplify_eq; simpl in Hstep.
    + by simplify_eq.
    + destruct (tasks s !! client); simplify_eq. simpl. set_solver.
Qed.

Lemma step_exited s ev s' c :
  reachable s → step s ev = Some s' →
  exited (tasks s !! c) → exited (tasks s' !! c).
Proof.
  intros Hs Hstep Hc.
  destruct (decide (task_of ev = Some c)) as [Hown|Hother].
  - destruct (tasks s !! c) as [p|] eqn:Hp; [|done].
    rewrite (step_finished s ev c p Hp Hown) in Hstep; [done|].
    by destruct p.
  - destruct (step_frame _ _ _ _ Hstep Hother) as [_ [Heq|(-> & -> & Heq)]].
    + by rewrite Heq.
    + destruct (tasks s !! next_ws s) as [p|] eqn:Hp; [|done].
      assert (next_ws s < next_ws s); [|lia].
      apply reachable_fresh; [done|by eexists].
Qed.

Lemma step_appends s ev s' :
  step s ev = Some s' → log s' = log s ++ new_actions s s'.
Proof.
  intros Hstep.
  assert (∃ new, log s' = log s ++ new) as [new Hnew].
  { step_inv Hstep; unfold exit_loop, cleanup; simpl;
      rewrite ?(proj2 (proj2 (proj2 (set_add_fields _ _)))),
              ?(proj2 (proj2 (proj2 (set_discard_fields _ _))));
      try (by exists []; rewrite app_nil_r);
      try (by eexists; rewrite <- ?app_assoc);
      match goal with |- context [for_clients ?ws ?todo ?data ?s0] =>
        destruct (for_clients_log ws todo data s0) as [->|(client & -> & _)]
      end; simpl;
      first [ by exists []; rewrite app_nil_r
            | by eexists; rewrite <- ?app_assoc ]. }
  unfold new_actions. by rewrite Hnew, drop_app_length.
Qed.

Lemma run_log s tr s' :
  run s tr = Some s' → log s' = log s ++ new_actions s s'.
Proof.
  revert s. induction tr as [|ev tr IH]; intros s; simpl.
  - intros [= <-]. unfold new_actions. by rewrite drop_all, app_nil_r.
  - destruct (step s ev) as [s1|] eqn:Hstep; [|done]. intros Hrun.
    unfold new_actions.
    rewrite (IH s1 Hrun), (step_appends _ _ _ Hstep), <- app_assoc.
    by rewrite !drop_app_length.
Qed.

(** A connection that stays out of the set or closed along a run is
    written to by nobody along that run. *)
Lemma never_sent_along (P : Server → Prop) (b : conn) :
  (∀ s ev s', reachable s → P s → step s ev = Some s' → P s') →
  (∀ s, reachable s → P s → b ∉ active_websockets s ∨ b ∈ closed s) →
  ∀ tr s s', reachable s → P s → run s tr = Some s' →
    ∀ a d, SendStr a b d ∉ new_actions s s'.
Proof.
  intros Hkeep Hout tr. induction tr as [|ev tr IH]; intros s s' Hs HP; simpl.
  - intros [= <-] a d. unfold new_actions. rewrite drop_all. apply not_elem_of_nil.
  - destruct (step s ev) as [s1|] eqn:Hstep; [|done]. intros Hrun a d Hin.
    assert (reachable s1) as Hs1 by eauto using reachable_step.
    destruct (step_sends s ev s1 (reachable_iter_ok s Hs) Hstep)
      as (new & Hlog & Hnew).
    pose proof (run_log _ _ _ Hrun) as Hlog'.
    unfold new_actions in Hin.
    rewrite Hlog', Hlog, <- app_assoc, drop_app_length in Hin.
    apply elem_of_app in Hin as [Hin|Hin].
    + destruct (Hnew a b d Hin) as (_ & Hb & _ & Hcl).
      destruct (Hout s Hs HP); done.
    + by apply (IH s1 s' Hs1 (Hkeep _ _ _ Hs HP Hstep) Hrun a d).
Qed.

Lemma prints_snoc l lg a :
  prints l (lg ++ [a]) = prints l lg + (if is_print l a then 1 else 0).
Proof.
  unfold prints. rewrite filter_app, length_app. f_equal.
  destruct (is_print l a) eqn:E.
  - rewrite filter_cons_True; [done|]. apply Is_true_true, E.
  - rewrite filter_cons_False; [done|]. apply Is_true_false, E.
Qed.

Lemma for_clients_prints l ws todo data s :
  prints l (log (for_clients ws todo data s)) = prints l (log s).
Proof.
  destruct (for_clients_log ws todo data s) as [->|(client & -> & _)]; [done|].
  rewrite prints_snoc. simpl. lia.
Qed.

Lemma next_client_nobody ws cl todo :
  Forall (λ c, c = ws ∨ c ∈ cl) todo → next_client ws cl todo = None.
Proof.
  induction 1 as [|c todo Hc _ IH]; simpl; [done|].
  rewrite decide_False; [done|]. unfold eligible. tauto.
Qed.

(** ** The error frame, and one message after the other *)






(** Text messages served one after the other, with no other coroutine in
    between: each is taken, [send_str] is called with its data on every
    member that passes the guard, in the order of the traversal, and only
    then is the next message taken. *)
Lemma fanouts_run ws cl msgs :
  ∀ s, closed s = cl → tasks s !! ws = Some Reading →
    Forall (λ m, enumerates m.2 (active_websockets s)) msgs →
    ∃ s', run s (flat_map (fanout_events ws cl) msgs) = Some s'
      ∧ log s' = log s ++ flat_map (fanout_actions ws cl) msgs
      ∧ tasks s' = tasks s
      ∧ active_websockets s' = active_websockets s
      ∧ closed s' = closed s.
Proof.
  induction msgs as [|[data order] msgs IH]; intros s Hcl Hpc Hmsgs.
  - exists s. simpl. by rewrite app_nil_r.
  - apply Forall_cons in Hmsgs as [Horder Hmsgs]. simpl in Horder.
    cbn [flat_map]. unfold fanout_events at 1, fanout_actions at 1.
    cbn [fst snd]. rewrite <- app_comm_cons. cbn [run].
    rewrite step_Recv_text by done. rewrite run_app.
    set (s0 := emit (Received ws (text data)) s).
    destruct (fanout_run ws data order s0)
      as (s1 & Hrun & Hlog & Htasks & Hreg & _ & Hcl1 & _).
    change (closed s0) with (closed s) in Hrun, Hlog. rewrite Hcl in Hrun, Hlog.
    rewrite Hrun. simpl.
    assert (tasks s1 = tasks s) as Htasks1.
    { rewrite Htasks. simpl. by apply insert_id. }
    destruct (IH s1) as (s' & Hrun' & Hlog' & Htasks' & Hreg' & Hcl');
      [by rewrite Hcl1|by rewrite Htasks1|by rewrite Hreg|].
    exists s'. split; [exact Hrun'|].
    rewrite Hlog', Hlog, Htasks', Htasks1, Hreg', Hreg, Hcl', Hcl1. simpl.
    by rewrite <- !app_assoc.
Qed.

(** C9.  For every handler, at every point of every run:
    - the data it has passed to [send_str], in the order of the calls, is
      the data of the text messages it took, in the order it took them,
      each repeated once per write of its fan-out;
    - text messages that reach it one after the other while it waits at
      line 19 are served one after the other: each is taken, [send_str] is
      called with its data on every member of the set that passes the
      guard, in the order of the traversal, and then the next is taken;
    - while fewer writes of a fan-out have returned than it has targets,
      the next message is not taken;
    - suspended in a write, the handler takes no message, and no step
      brings it back to line 19 but the return of its write when no member
      that passes the guard is left in the iterator. *)
Theorem relay_keeps_order (tr : list event) (s : Server) (ws : conn) :
  run init tr = Some s →
  (∃ counts, length counts = length (texts_received ws (log s))
     ∧ payloads_sent ws (log s)
       = mjoin (zip_with replicate counts (texts_received ws (log s))))
  ∧ (∀ msgs, tasks s !! ws = Some Reading →
       Forall (λ m, enumerates m.2 (active_websockets s)) msgs →
       ∃ s', run s (flat_map (fanout_events ws (closed s)) msgs) = Some s'
         ∧ new_actions s s' = flat_map (fanout_actions ws (closed s)) msgs
         ∧ tasks s' !! ws = Some Reading)
  ∧ (∀ data order k msg' order', tasks s !! ws = Some Reading →
       enumerates order (active_websockets s) →
       k < length (filter (eligible ws (closed s)) order) →
       run s (Recv ws (text data) order
              :: replicate k (Sent ws) ++ [Recv ws msg' order']) = None)
  ∧ (∀ it data, tasks s !! ws = Some (Sending it data) →
       (∀ msg order, step s (Recv ws msg order) = None)
       ∧ (∀ ev s', step s ev = Some s' → tasks s' !! ws = Some Reading →
            ∃ todo, (ev = Sent ws ∧ todo = it_todo it ∨ ev = SentRacy ws todo)
              ∧ Forall (λ c, ¬ eligible ws (closed s) c) todo)).
Proof.
  intros Hrun.
  assert (reachable s) as Hs by by exists tr.
  split; [apply verbatim_blocks, reachable_log_ok, Hs|].
  split; [|split].
  - intros msgs Hpc Hmsgs.
    destruct (fanouts_run ws (closed s) msgs s)
      as (s' & Hrun' & Hlog & Htasks & _); [done..|].
    exists s'. split; [exact Hrun'|].
    unfold new_actions. by rewrite Hlog, drop_app_length, Htasks.
  - intros data order k msg' order' Hpc Horder Hk.
    cbn [run]. rewrite step_Recv_text by done. rewrite run_app.
    destruct (fanout_prefix ws data order (emit (Received ws (text data)) s) k)
      as (s' & it & -> & _ & Htasks & _); [done|].
    simpl. by rewrite Htasks, lookup_insert_eq.
  - intros it data Hpc. split.
    + intros msg order. simpl. by rewrite Hpc.
    + intros ev s' Hstep Hpc'.
      assert (∀ todo s0, closed s0 = closed s →
                tasks (for_clients ws todo data s0) !! ws = Some Reading →
                Forall (λ c, ¬ eligible ws (closed s) c) todo) as Hdone.
      { intros todo s0 Hcl Hback. unfold for_clients in Hback. rewrite Hcl in Hback.
        destruct (next_client ws (closed s) todo) as [[client rest]|] eqn:Hnext.
        - simpl in Hback. by rewrite lookup_insert_eq in Hback.
        - by apply next_client_None. }
      destruct (decide (task_of ev = Some ws)) as [Hown|Hother].
      * destruct ev; simpl in Hown; simplify_eq; simpl in Hstep;
          rewrite Hpc in Hstep; simpl in Hstep; try done.
        -- destruct (decide (size (active_websockets s) = it_used it));
             [|simplify_eq; unfold exit_loop in Hpc'; simpl in Hpc';
               by rewrite lookup_insert_eq in Hpc'].
           destruct (decide (mutations s = it_version it)); [|done].
           simplify_eq. exists (it_todo it). split; [by left|].
           by apply (Hdone _ s).
        -- destruct (decide _); [|done]. simplify_eq.
           exists todo. split; [by right|]. by apply (Hdone _ s).
        -- simplify_eq. unfold exit_loop in Hpc'. simpl in Hpc'.
           by rewrite lookup_insert_eq in Hpc'.
      * destruct (step_frame _ _ _ _ Hstep Hother) as [_ [Heq|(_ & _ & Heq)]];
          rewrite Heq in Hpc'; [by rewrite Hpc in Hpc'|done].
Qed.

Lemma relay_keeps_order_witness :
  (∃ s', run three_clients
           [Recv 0 (text "first") [0; 1; 2]; Sent 0; Sent 0;
            Recv 0 (text "second") [2; 1; 0]; Sent 0; Sent 0] = Some s'
     ∧ new_actions three_clients s'
       = [Received 0 (text "first"); SendStr 0 1 "first"; SendStr 0 2 "first";
          Received 0 (text "second"); SendStr 0 2 "second"; SendStr 0 1 "second"]
     ∧ tasks s' !! 0 = Some Reading)
  ∧ run three_clients
      [Recv 0 (text "first") [0; 1; 2]; Sent 0; Recv 0 (text "second") [2; 1; 0]]
    = None.
Proof.
  destruct (relay_keeps_order three_connected three_clients 0
              ltac:(vm_compute; reflexivity)) as (_ & Hserve & Hearly & _).
  split.
  - destruct (Hserve first_second) as (s' & Hrun & Hnew & Hpc).
    + vm_compute; reflexivity.
    + repeat (apply Forall_cons; split; [compute_done|]). by apply Forall_nil.
    + exists s'. split; [|split]; [| |exact Hpc].
      * rewrite <- Hrun. f_equal.
      * rewrite Hnew. vm_compute; reflexivity.
  - apply (Hearly "first" [0; 1; 2] 1 (text "second") [2; 1; 0]).
    + vm_compute; reflexivity.
    + compute_done.
    + vm_compute. lia.
Defined.

(** ** Further properties of the relay loop *)

(** X1.  Along every run the set holds exactly the connections whose
    handler is inside the loop, and has as many members as there are such
    handlers. *)
Theorem registry_is_open_connections (tr : list event) (s : Server) :
  run init tr = Some s →
  active_websockets s = open_connections s
  ∧ size (active_websockets s) = size (filter (λ kv, looping kv.2) (tasks s)).
Proof.
  intros Hrun. assert (reachable s) as Hs by by exists tr.
  assert (active_websockets s = open_connections s) as Heq.
  { apply set_eq. intros c. rewrite (reachable_member s c Hs).
    unfold open_connections. rewrite elem_of_dom. unfold is_Some.
    setoid_rewrite map_lookup_filter_Some. simpl.
    destruct (tasks s !! c) as [[]|]; simpl; naive_solver. }
  split; [exact Heq|]. rewrite Heq. unfold open_connections. apply size_dom.
Qed.

Lemma registry_is_open_connections_witness :
  active_websockets (default init (run init left_alone))
  = open_connections (default init (run init left_alone))
  ∧ size (active_websockets (default init (run init left_alone)))
    = size (filter (λ kv, looping kv.2)
              (tasks (default init (run init left_alone)))).
Proof.
  exact (registry_is_open_connections left_alone
           (default init (run init left_alone)) ltac:(vm_compute; reflexivity)).
Defined.

(** X2.  Along every run, "Device connected" has been printed as often as
    "Device disconnected" plus once for each member of the set. *)
Theorem prints_balance (tr : list event) (s : Server) :
  run init tr = Some s →
  prints Device_connected (log s)
  = prints Device_disconnected (log s) + size (active_websockets s).
Proof.
  intros Hrun. assert (reachable s) as Hs by by exists tr.
  clear Hrun. revert s Hs. apply reachable_inv; [done|].
  intros s ev s' Hs IH Hstep.
  assert (∀ ws p, tasks s !! ws = Some p → looping p = true →
            ws ∈ active_websockets s) as Hin.
  { intros ws p Hp Hl. apply (reachable_member s ws Hs). rewrite Hp.
    by destruct p. }
  assert (∀ ws, tasks s !! ws = Some Preparing → ws ∉ active_websockets s)
    as Hout.
  { intros ws Hp Hm. apply (reachable_member s ws Hs) in Hm.
    by rewrite Hp in Hm. }
  step_inv Hstep; unfold exit_loop, cleanup, set_add, set_discard; simpl;
    rewrite ?for_clients_prints, ?(proj1 (for_clients_fields _ _ _ _));
    simpl; rewrite ?prints_snoc; simpl; try lia;
    repeat match goal with
    | H : tasks s !! ?ws = Some Preparing |- _ =>
        rewrite (decide_False (P := ws ∈ active_websockets s)) by eauto;
        simpl; rewrite size_union, size_singleton by
          (apply disjoint_singleton_l; eauto); clear H
    | H : tasks s !! ?ws = Some ?p |- _ =>
        assert (ws ∈ active_websockets s) by (by eapply Hin);
        rewrite (decide_True (P := ws ∈ active_websockets s)) by done;
        simpl;
        assert (size (active_websockets s) ≠ 0) by
          (by intros ?%size_empty_inv%leibniz_equiv; set_solver);
        rewrite size_difference, size_singleton by set_solver; clear H
    end; lia.
Qed.

Lemma prints_balance_witness :
  prints Device_connected (log (default init (run init left_alone)))
  = prints Device_disconnected (log (default init (run init left_alone)))
    + size (active_websockets (default init (run init left_alone))).
Proof.
  exact (prints_balance left_alone (default init (run init left_alone))
           ltac:(vm_compute; reflexivity)).
Defined.

(** X3.  Whatever happens in the handler of one connection, its own
    exceptions included, the handler of every other connection stays
    where it is, every other connection stays in or out of the set as it
    was, and no closed flag changes. *)
Theorem other_handlers_untouched (s s' : Server) (ev : event) (a c : conn) :
  step s ev = Some s' →
  task_of ev = Some a →
  c ≠ a →
  tasks s' !! c = tasks s !! c
  ∧ (c ∈ active_websockets s' ↔ c ∈ active_websockets s)
  ∧ closed s' = closed s.
Proof.
  intros Hstep Ha Hc.
  assert (task_of ev ≠ Some c) as Hother by congruence.
  destruct (step_frame _ _ _ _ Hstep Hother) as [Hreg [Heq|(-> & _)]];
    [|done].
  split; [exact Heq|]. split; [exact Hreg|]. by eapply step_closed.
Qed.

Lemma other_handlers_untouched_witness :
  tasks (default init
           (run three_clients
              [Recv 0 (text "hello") [0; 1; 2]; SendRaise 0 connection_reset]))
    !! 1
  = tasks (default init (run three_clients [Recv 0 (text "hello") [0; 1; 2]]))
      !! 1
  ∧ (1 ∈ active_websockets
           (default init
              (run three_clients
                 [Recv 0 (text "hello") [0; 1; 2];
                  SendRaise 0 connection_reset]))
     ↔ 1 ∈ active_websockets
             (default init (run three_clients [Recv 0 (text "hello") [0; 1; 2]])))
  ∧ closed (default init
              (run three_clients
                 [Recv 0 (text "hello") [0; 1; 2]; SendRaise 0 connection_reset]))
    = closed (default init (run three_clients [Recv 0 (text "hello") [0; 1; 2]])).
Proof.
  exact (other_handlers_untouched
           (default init (run three_clients [Recv 0 (text "hello") [0; 1; 2]]))
           (default init
              (run three_clients
                 [Recv 0 (text "hello") [0; 1; 2]; SendRaise 0 connection_reset]))
           (SendRaise 0 connection_reset) 0 1
           ltac:(vm_compute; reflexivity) eq_refl ltac:(discriminate)).
Defined.

(** X4.  Once the handler of a connection has left the loop, no handler
    ever calls [send_str] on that connection again, however the run goes
    on. *)
Theorem left_connection_never_targeted (tr tr' : list event) (s s' : Server)
    (ws : conn) :
  run init tr = Some s →
  exited (tasks s !! ws) →
  run s tr' = Some s' →
  unsent ws (new_actions s s').
Proof.
  intros Hrun Hex Hrun'. assert (reachable s) as Hs by by exists tr.
  apply Forall_forall. intros x Hx a d ->. revert Hx.
  apply (never_sent_along (λ s0, exited (tasks s0 !! ws)) ws) with (tr := tr');
    try done.
  - intros s0 ev s1 Hs0 H0 Hstep. by eapply step_exited.
  - intros s0 Hs0 H0. left. intros Hm.
    apply (reachable_member s0 ws Hs0) in Hm.
    destruct (tasks s0 !! ws) as [[]|]; done.
Qed.

Lemma left_connection_never_targeted_witness :
  unsent 1
    (new_actions (default init (run init left_alone))
       (default init
          (run (default init (run init left_alone))
             [Request; Prepared 2; Recv 0 (text "world") [2; 0]; Sent 0]))).
Proof.
  exact (left_connection_never_targeted left_alone
           [Request; Prepared 2; Recv 0 (text "world") [2; 0]; Sent 0]
           (default init (run init left_alone))
           (default init
              (run (default init (run init left_alone))
                 [Request; Prepared 2; Recv 0 (text "world") [2; 0]; Sent 0]))
           1 ltac:(vm_compute; reflexivity) ltac:(vm_compute; exact I)
           ltac:(vm_compute; reflexivity)).
Defined.

(** X5.  Once the [closed] flag of a connection is set, no handler ever
    calls [send_str] on that connection again, however the run goes on;
    the connection stays in the set until its own handler leaves the
    loop. *)
Theorem closed_connection_never_written (tr tr' : list event) (s s' : Server)
    (c : conn) :
  run init tr = Some s →
  c ∈ closed s →
  run s tr' = Some s' →
  unsent c (new_actions s s')
  ∧ (in_loop (tasks s' !! c) → c ∈ active_websockets s').
Proof.
  intros Hrun Hc Hrun'. assert (reachable s) as Hs by by exists tr.
  split.
  - apply Forall_forall. intros x Hx a d ->. revert Hx.
    apply (never_sent_along (λ s0, c ∈ closed s0) c) with (tr := tr');
      try done.
    + intros s0 ev s1 _ H0 Hstep. by eapply step_closed_mono.
    + intros s0 _ H0. by right.
  - intros Hl. by apply (reachable_member s' c (reachable_run _ _ _ Hs Hrun')).
Qed.

Lemma closed_connection_never_written_witness :
  unsent 2
    (new_actions (default init (run init one_closed))
       (default init
          (run (default init (run init one_closed))
             [Recv 0 (text "hello") [2; 1; 0]; Sent 0])))
  ∧ (in_loop
       (tasks (default init
                 (run (default init (run init one_closed))
                    [Recv 0 (text "hello") [2; 1; 0]; Sent 0])) !! 2) →
     2 ∈ active_websockets
           (default init
              (run (default init (run init one_closed))
                 [Recv 0 (text "hello") [2; 1; 0]; Sent 0]))).
Proof.
  exact (closed_connection_never_written one_closed
           [Recv 0 (text "hello") [2; 1; 0]; Sent 0]
           (default init (run init one_closed))
           (default init
              (run (default init (run init one_closed))
                 [Recv 0 (text "hello") [2; 1; 0]; Sent 0]))
           2 ltac:(vm_compute; reflexivity) ltac:(compute_done)
           ltac:(vm_compute; reflexivity)).
Defined.

(** X6.  A text message taken while no other open connection is in the
    set is dropped: the handler calls no [send_str], keeps nothing of the
    message, and waits for the next one. *)
Theorem nobody_to_relay_to (s : Server) (ws : conn) (data : string)
    (order : list conn) :
  tasks s !! ws = Some Reading →
  enumerates order (active_websockets s) →
  (∀ c, c ∈ active_websockets s → c = ws ∨ c ∈ closed s) →
  step s (Recv ws (text data) order) = Some (emit (Received ws (text data)) s).
Proof.
  intros Hpc Horder Hnone. rewrite step_Recv_text by done.
  unfold for_clients. rewrite next_client_nobody.
  - unfold set_pc, emit. simpl. by rewrite insert_id.
  - apply Forall_forall. intros c Hc. apply Hnone.
    by apply (enumerates_elem_of order (active_websockets s)).
Qed.

Lemma nobody_to_relay_to_witness :
  step (default init (run init left_alone)) (Recv 0 (text "world") [0])
  = Some (emit (Received 0 (text "world")) (default init (run init left_alone))).
Proof.
  exact (nobody_to_relay_to (default init (run init left_alone)) 0 "world" [0]
           ltac:(vm_compute; reflexivity) ltac:(compute_done)
           ltac:(intros c Hc; left;
                 assert (c ∈ ({[0]} : gset nat)) as Hc0 by exact Hc;
                 by apply elem_of_singleton in Hc0)).
Defined.

(** * Part III: properties of the routes *)

Section routes.

Import Http.

Lemma substring_all (s : string) :
  String.substring 0 (String.length s) s = s.
Proof. induction s as [|a s IH]; simpl; [done|]. by rewrite IH. Qed.

Lemma prefix_empty (s : string) : String.prefix EmptyString s = true.
Proof. by destruct s. Qed.

Lemma slash_inj (a b : string) : "/" +:+ a = "/" +:+ b → a = b.
Proof. intros H. by injection H. Qed.

Lemma static_matches (cwd : string) (m : method) (name : string) :
  m ∈ [GET; HEAD] →
  resource_resolve (StaticResource (strip_slash "/") cwd)
    (mkRequest m ("/" +:+ name))
  = (Some (static_handler cwd, name), [GET; HEAD]).
Proof.
  intros Hm. unfold resource_resolve.
  change (strip_slash "/") with EmptyString. simpl.
  rewrite decide_True by done.
  change (EmptyString +:+ name) with name.
  rewrite prefix_empty. simpl.
  by rewrite Nat.sub_0_r, substring_all.
Qed.

Lemma static_refuses (cwd : string) (m : method) (name : string) :
  m ∉ [GET; HEAD] →
  resource_resolve (StaticResource (strip_slash "/") cwd)
    (mkRequest m ("/" +:+ name))
  = (None, [GET; HEAD]).
Proof.
  intros Hm. unfold resource_resolve.
  change (strip_slash "/") with EmptyString. simpl.
  rewrite decide_False by done.
  change (EmptyString +:+ name) with name.
  by rewrite prefix_empty.
Qed.

(** X7.  A GET or HEAD request for /ws goes to [websocket_handler], one
    for /dashboard.html to [external_dashboard_handler], and one for any
    other path to the static route of the working directory, with the
    path after the leading slash as file name. *)
Theorem get_routing (cwd : string) (m : method) (name : string) :
  m ∈ [GET; HEAD] →
  resolve (app cwd) (mkRequest m ("/" +:+ name)) []
  = inl (if decide (name = "ws") then (websocket_handler, EmptyString)
         else if decide (name = "dashboard.html")
              then (external_dashboard_handler, EmptyString)
              else (static_handler cwd, name)).
Proof.
  intros Hm.
  assert (m ∈ [HEAD; GET]) as Hm' by set_solver.
  pose proof (static_matches cwd m name Hm) as Hs.
  unfold app, add_get, add_static. cbn [Datatypes.app resolve].
  rewrite Hs. clear Hs.
  cbn [resource_resolve req_path req_method].
  destruct (decide (name = "ws")) as [->|Hws].
  - rewrite decide_True by done. by rewrite decide_True.
  - rewrite (decide_False (P := "/" +:+ name = "/ws"))
      by (intros H; by apply Hws, slash_inj).
    destruct (decide (name = "dashboard.html")) as [->|Hd].
    + rewrite decide_True by done. by rewrite decide_True.
    + by rewrite (decide_False (P := "/" +:+ name = "/dashboard.html"))
        by (intros H; by apply Hd, slash_inj).
Qed.

Lemma get_routing_witness :
  resolve (app "/srv/simulation") (mkRequest GET ("/" +:+ "index.html")) []
  = inl (if decide ("index.html" = "ws") then (websocket_handler, EmptyString)
         else if decide ("index.html" = "dashboard.html")
              then (external_dashboard_handler, EmptyString)
              else (static_handler "/srv/simulation", "index.html")).
Proof.
  exact (get_routing "/srv/simulation" GET "index.html" ltac:(compute_done)).
Defined.

(** X8.  A request whose method is neither GET nor HEAD reaches no
    handler, whatever its path: the router answers it itself with the
    methods the matching routes allow, of which there is at least one. *)
Theorem other_methods_refused (cwd : string) (fs : files) (m : method)
    (name : string) :
  m ∉ [GET; HEAD] →
  ∃ allowed, resolve (app cwd) (mkRequest m ("/" +:+ name)) [] = inr allowed
    ∧ allowed ≠ []
    ∧ dispatch (app cwd) fs (mkRequest m ("/" +:+ name))
      = HTTPMethodNotAllowed allowed.
Proof.
  intros Hm.
  assert (m ∉ [HEAD; GET]) as Hm' by set_solver.
  assert (∃ pre, resolve (app cwd) (mkRequest m ("/" +:+ name)) []
                 = inr (pre ++ [GET; HEAD])) as [pre Hpre].
  { pose proof (static_refuses cwd m name Hm) as Hs.
    unfold app, add_get, add_static. cbn [Datatypes.app resolve].
    rewrite Hs. clear Hs.
    cbn [resource_resolve req_path req_method].
    rewrite (decide_False (P := m ∈ [HEAD; GET])) by done.
    repeat (case_decide; cbn [Datatypes.app]); try done;
      first [ by exists [] | by exists [HEAD; GET]
            | by exists [HEAD; GET; HEAD; GET] ]. }
  exists (pre ++ [GET; HEAD]). split; [exact Hpre|].
  split; [by destruct pre|].
  unfold dispatch. rewrite Hpre. by destruct pre.
Qed.

Lemma other_methods_refused_witness :
  ∃ allowed,
    resolve (app "/srv/simulation") (mkRequest POST ("/" +:+ "dashboard.html")) []
    = inr allowed
    ∧ allowed ≠ []
    ∧ dispatch (app "/srv/simulation") two_dashboards
        (mkRequest POST ("/" +:+ "dashboard.html"))
      = HTTPMethodNotAllowed allowed.
Proof.
  exact (other_methods_refused "/srv/simulation" two_dashboards POST
           "dashboard.html" ltac:(compute_done)).
Defined.

(** C7.  Whatever the working directory and whatever files it holds, a
    GET request for /dashboard.html is answered by
    [external_dashboard_handler] with the file at
    [EXTERNAL_DASHBOARD_PATH], so the contents sent are those of that file;
    the static route, which without line 45 would answer with the file of
    that name in the working directory, is not asked. *)
Theorem dashboard_alias (cwd : string) (fs : files) (req : request)
    (local : string) :
  req_method req = GET →
  req_path req = "/dashboard.html" →
  dispatch (app cwd) fs req = FileResponse EXTERNAL_DASHBOARD_PATH
  ∧ body fs (dispatch (app cwd) fs req) = fs EXTERNAL_DASHBOARD_PATH
  ∧ (fs (cwd +:+ "/dashboard.html") = Some local →
     dispatch (app_without_alias cwd) fs req
     = FileResponse (cwd +:+ "/dashboard.html")).
Proof.
  destruct req as [m path]. simpl. intros -> ->.
  split; [done|]. split; [done|].
  intros Hlocal. unfold dispatch. simpl.
  change ("/" +:+ "dashboard.html") with "/dashboard.html". by rewrite Hlocal.
Qed.

Lemma dashboard_alias_witness :
  dispatch (app "/srv/simulation") two_dashboards dashboard_request
  = FileResponse EXTERNAL_DASHBOARD_PATH
  ∧ body two_dashboards (dispatch (app "/srv/simulation") two_dashboards
                           dashboard_request)
    = two_dashboards EXTERNAL_DASHBOARD_PATH
  ∧ (two_dashboards ("/srv/simulation" +:+ "/dashboard.html")
     = Some "<html>local</html>" →
     dispatch (app_without_alias "/srv/simulation") two_dashboards
       dashboard_request
     = FileResponse ("/srv/simulation" +:+ "/dashboard.html")).
Proof.
  exact (dashboard_alias "/srv/simulation" two_dashboards dashboard_request
           "<html>local</html>" ltac:(reflexivity) ltac:(reflexivity)).
Defined.

End routes.
